(** * Environment-entropy collectors of [randomenv.cpp]

    A shallow embedding of the collectors that feed the SHA-512 seeder:
    the perfmon collector with its ten-minute gate, the raw-memory
    [operator<<], the socket-address, file, path and sysctl readers, the
    CPUID enumeration and the environment-variable loop of the static
    collector.

    Conventions.  The hasher is the log of its [Write] calls, oldest first;
    the digest is a function of the concatenation of that log.  Unsigned
    machine integers are [Z] with the wrap-around written where the source
    can reach it ([uint32_t] modulo 2^32, [size_t] modulo 2^64); object
    representations are little-endian byte lists. *)

From Stdlib Require Import ZArith List Bool Lia.
From Stdlib.Strings Require Import Byte.
From Stdlib Require String.
From Equations Require Import Equations.
Import ListNotations.
Open Scope Z_scope.

(* ===================================================================== *)
(** * Part I: the program                                                 *)
(* ===================================================================== *)

(** ** Bytes and object representations *)

Definition byte_of_Z (z : Z) : byte :=
  match Byte.of_N (Z.to_N (z mod 256)) with
  | Some b => b
  | None => Byte.x00
  end.

(** The [n] bytes of the little-endian representation of [v]. *)
Fixpoint le_bytes (n : nat) (v : Z) : list byte :=
  match n with
  | O => []
  | S k => byte_of_Z v :: le_bytes k (v / 256)
  end.

Definition Z_of_byte (b : byte) : Z := Z.of_N (Byte.to_N b).

(** Decoding of a little-endian field. *)
Fixpoint le_decode (bs : list byte) : Z :=
  match bs with
  | [] => 0
  | b :: rest => Z_of_byte b + 256 * le_decode rest
  end.

Definition sizeof_int : nat := 4.
Definition sizeof_uint32_t : nat := 4.
Definition sizeof_size_t : nat := 8.

Definition UINT32_MOD : Z := 2 ^ 32.
Definition SIZE_MOD : Z := 2 ^ 64.

(** A region of memory seen from a pointer: the byte at each offset. *)
Definition mem_view := nat -> byte.

Definition load (m : mem_view) (off n : nat) : list byte :=
  map m (seq off n).

(** A C string is the memory behind a [char *]; the list gives the bytes
    up to some point after which only NUL bytes follow. *)
Definition cstring := list byte.

Fixpoint strlen (s : cstring) : nat :=
  match s with
  | [] => O
  | b :: rest => if Byte.eqb b Byte.x00 then O else S (strlen rest)
  end.

(** The first [n] bytes behind a [char *]. *)
Definition str_bytes (s : cstring) (n : nat) : list byte :=
  firstn n (s ++ repeat Byte.x00 n).

(** ** The hasher *)

Definition CSHA512 := list (list byte).

Definition Write (hasher : CSHA512) (data : list byte) : CSHA512 :=
  hasher ++ [data].

(** The byte stream the digest depends on. *)
Definition absorbed (hasher : CSHA512) : list byte := concat hasher.

(** ** RandAddSeedPerfmon (WIN32) *)

Record reg_result := mk_reg_result {
  reg_ret : Z;              (* return code of RegQueryValueExA *)
  reg_nSize : Z;            (* nSize after the call *)
  reg_vData : list byte     (* contents of vData after the call *)
}.

Inductive win_call :=
| CallRegQueryValueExA (buffer_size : Z)
| CallRegCloseKey.

(** The process: the hasher passed in, the static [last_perfmon], and the
    registry calls made so far. *)
Record perfmon_state := mk_perfmon_state {
  hasher : CSHA512;
  last_perfmon : Z;
  os_calls : list win_call
}.

Definition nMaxSize : Z := 10000000.
Definition perfmon_cooldown : Z := 10 * 60.

Definition is_query (c : win_call) : bool :=
  match c with CallRegQueryValueExA _ => true | CallRegCloseKey => false end.

Definition is_close (c : win_call) : bool :=
  match c with CallRegCloseKey => true | CallRegQueryValueExA _ => false end.

Definition query_sizes (cs : list win_call) : list Z :=
  flat_map (fun c => match c with
                     | CallRegQueryValueExA n => [n]
                     | CallRegCloseKey => []
                     end) cs.

Definition count_queries (cs : list win_call) : nat :=
  length (filter is_query cs).

(** One collection ends with exactly one [RegCloseKey]. *)
Definition count_collections (cs : list win_call) : nat :=
  length (filter is_close cs).

(** A value together with the equation that it is what was computed; lets
    the branches of a test remember its outcome. *)
Definition inspect {A : Type} (a : A) : {b : A | a = b} := exist _ a eq_refl.

(** Termination measure of the query loop: whether the buffer is still
    below the cap. *)
Definition below_cap (size : Z) : nat :=
  if size <? nMaxSize then 1%nat else 0%nat.

Section Perfmon.

Variables ERROR_SUCCESS ERROR_MORE_DATA : Z.

(** The registry: its answer to a query with a buffer of the given size,
    after the calls made so far. *)
Variable RegQueryValueExA : list win_call -> Z -> reg_result.

Definition perfmon_stop (r : reg_result) (size : Z) : bool :=
  negb (reg_ret r =? ERROR_MORE_DATA) || (size >=? nMaxSize).

(** [vData.resize(std::max((vData.size() * 3) / 2, nMaxSize))] *)
Definition perfmon_resize (size : Z) : Z :=
  Z.max (((size * 3) mod SIZE_MOD) / 2) nMaxSize.

(** The [while (true)] loop; [size] is [vData.size()].  It returns the
    answer of the last query and the calls made. *)
Equations? perfmon_loop (size : Z) (calls : list win_call)
  : reg_result * list win_call
  by wf (below_cap size) lt :=
perfmon_loop size calls
  with inspect (perfmon_stop (RegQueryValueExA calls size) size) => {
  | exist _ true _ =>
      (RegQueryValueExA calls size,
       calls ++ [CallRegQueryValueExA size]);
  | exist _ false Hgo =>
      perfmon_loop (perfmon_resize size)
                   (calls ++ [CallRegQueryValueExA size]) }.
Proof.
  unfold perfmon_stop in Hgo. apply orb_false_iff in Hgo.
  destruct Hgo as [_ Hlt]. unfold below_cap, perfmon_resize.
  destruct (Z.ltb_spec size nMaxSize);
    destruct (Z.ltb_spec
                (Z.max (((size * 3) mod SIZE_MOD) / 2) nMaxSize) nMaxSize);
    lia.
Qed.

Definition RandAddSeedPerfmon (current_time : Z) (st : perfmon_state)
  : perfmon_state :=
  let last_time := last_perfmon st in
  if current_time <? last_time + perfmon_cooldown then st
  else
    let '(r, calls) := perfmon_loop 250000 (os_calls st) in
    let calls := calls ++ [CallRegCloseKey] in
    if reg_ret r =? ERROR_SUCCESS then
      mk_perfmon_state
        (Write (hasher st) (firstn (Z.to_nat (reg_nSize r)) (reg_vData r)))
        current_time calls
    else
      mk_perfmon_state (hasher st) current_time calls.

End Perfmon.

(** ** The raw-memory [operator<<] and its static assertions *)

Module TypeTraits.

Inductive cv_qual := cv_none | cv_const | cv_volatile | cv_const_volatile.

(** Unqualified C++ types; a pointer or an array carries the
    qualification of what it points to or holds.  [uint8_t] is
    [unsigned char]. *)
Inductive ctype :=
| Tvoid
| Tbool
| Tchar
| Tuint8_t
| Tint
| Tuint32_t
| Tsize_t
| Tclass (tag : nat)
| Tpointer (q : cv_qual) (pointee : ctype)
| Tarray (q : cv_qual) (elem : ctype) (bound : N)
| Tfunction (result : ctype).

(** A type as a template argument: possibly a reference, possibly
    qualified at top level. *)
Record cxx_type := mk_cxx_type {
  is_reference : bool;
  top_cv : cv_qual;
  core : ctype
}.

Definition plain (t : ctype) : cxx_type := mk_cxx_type false cv_none t.

Definition cv_qual_eq_dec (a b : cv_qual) : {a = b} + {a <> b}.
Proof. decide equality. Defined.

Definition ctype_eq_dec (a b : ctype) : {a = b} + {a <> b}.
Proof.
  decide equality;
    try apply cv_qual_eq_dec; try apply N.eq_dec; apply Nat.eq_dec.
Defined.

(** [std::decay]: drop the reference, turn an array into a pointer to
    its element and a function into a pointer to it, otherwise drop the
    top-level qualifiers. *)
Definition decay (T : cxx_type) : ctype :=
  match core T with
  | Tarray q elem _ => Tpointer q elem
  | Tfunction r => Tpointer cv_none (Tfunction r)
  | t => t
  end.

Definition is_same (a b : ctype) : bool :=
  if ctype_eq_dec a b then true else false.

Definition is_pointer (t : ctype) : bool :=
  match t with Tpointer _ _ => true | _ => false end.

Definition char_ptr : ctype := Tpointer cv_none Tchar.
Definition uint8_ptr : ctype := Tpointer cv_none Tuint8_t.
Definition const_char_ptr : ctype := Tpointer cv_const Tchar.
Definition const_uint8_ptr : ctype := Tpointer cv_const Tuint8_t.
Definition void_ptr : ctype := Tpointer cv_none Tvoid.

End TypeTraits.

Import TypeTraits.

(** The four [static_assert]s of [operator<<], in source order. *)
Definition static_asserts_hold (T : cxx_type) : bool :=
  negb (is_same (decay T) char_ptr)
  && negb (is_same (decay T) uint8_ptr)
  && negb (is_same (decay T) const_char_ptr)
  && negb (is_same (decay T) const_uint8_ptr).

(** [operator<<(CSHA512 &, const T &)]: [data] is the object
    representation of the argument, [sizeof(data)] bytes.  [None] stands
    for an instantiation that does not compile. *)
Definition operator_shl (T : cxx_type) (hasher : CSHA512) (data : list byte)
  : option CSHA512 :=
  if static_asserts_hold T then Some (Write hasher data) else None.

(** The instantiations used by the collectors below, written as the
    [Write] they amount to. *)
Definition shl_uint32_t (hasher : CSHA512) (v : Z) : CSHA512 :=
  Write hasher (le_bytes sizeof_uint32_t v).

Definition shl_size_t (hasher : CSHA512) (v : Z) : CSHA512 :=
  Write hasher (le_bytes sizeof_size_t v).

(** ** AddSockaddr *)

Section Sockaddr.

Variables AF_INET AF_INET6 : Z.
Variables sizeof_sockaddr_in sizeof_sockaddr_in6 : nat.
Variables offsetof_sa_family sizeof_sa_family : nat.

Definition sa_family (addr : mem_view) : Z :=
  le_decode (load addr offsetof_sa_family sizeof_sa_family).

(** [None] is the null pointer. *)
Definition AddSockaddr (hasher : CSHA512) (addr : option mem_view)
  : CSHA512 :=
  match addr with
  | None => hasher
  | Some a =>
      if sa_family a =? AF_INET then
        Write hasher (load a 0 sizeof_sockaddr_in)
      else if sa_family a =? AF_INET6 then
        Write hasher (load a 0 sizeof_sockaddr_in6)
      else
        Write hasher (load a offsetof_sa_family sizeof_sa_family)
  end.

End Sockaddr.

(** ** AddFile and AddPath *)

(** What one [read] call delivers. *)
Inductive read_result :=
| ReadError                       (* -1, whatever errno *)
| ReadData (data : list byte).    (* the bytes available to this call *)

Record open_file := mk_open_file {
  fstat_result : option (list byte);   (* [struct stat] when fstat gives 0 *)
  pending_reads : list read_result     (* then end of stream *)
}.

Record filesystem := mk_filesystem {
  fs_open : cstring -> Z;                    (* descriptor, or -1 *)
  fs_file : Z -> open_file;
  fs_stat : cstring -> option (list byte)    (* [struct stat] when stat gives 0 *)
}.

Definition sizeof_fbuf : nat := 4096.
Definition AddFile_cap : Z := 1048576.

(** [n = read(f, fbuf, sizeof(fbuf))]: the value of [n] and the bytes put
    into [fbuf]. *)
Definition read (r : option read_result) (count : nat) : Z * list byte :=
  match r with
  | None => (0, [])
  | Some ReadError => (-1, [])
  | Some (ReadData d) => (Z.of_nat (length (firstn count d)), firstn count d)
  end.

(** The body of the [do] loop after the [read]: the hasher and [total]. *)
Definition AddFile_body (n : Z) (fbuf : list byte) (total : Z)
    (hasher : CSHA512) : CSHA512 * Z :=
  (if n >? 0 then Write hasher fbuf else hasher,
   (total + n) mod SIZE_MOD).

(** [n == sizeof(fbuf) && total < 1048576], with [n] converted to [size_t]. *)
Definition AddFile_again (n total : Z) : bool :=
  (n mod SIZE_MOD =? Z.of_nat sizeof_fbuf) && (total <? AddFile_cap).

Fixpoint AddFile_loop (pending : list read_result) (total : Z)
    (hasher : CSHA512) : CSHA512 :=
  match pending with
  | [] =>
      let '(n, fbuf) := read None sizeof_fbuf in
      fst (AddFile_body n fbuf total hasher)
  | r :: rest =>
      let '(n, fbuf) := read (Some r) sizeof_fbuf in
      let '(hasher', total') := AddFile_body n fbuf total hasher in
      if AddFile_again n total' then AddFile_loop rest total' hasher'
      else hasher'
  end.

Definition AddFile (fs : filesystem) (hasher : CSHA512) (path : cstring)
  : CSHA512 :=
  let f := fs_open fs path in
  if negb (f =? -1) then
    let hasher := Write hasher (le_bytes sizeof_int f) in
    let hasher :=
      match fstat_result (fs_file fs f) with
      | Some sb => Write hasher sb
      | None => hasher
      end in
    AddFile_loop (pending_reads (fs_file fs f)) 0 hasher
  else hasher.

Definition AddPath (fs : filesystem) (hasher : CSHA512) (path : cstring)
  : CSHA512 :=
  match fs_stat fs path with
  | Some sb =>
      Write (Write hasher (str_bytes path (strlen path + 1))) sb
  | None => hasher
  end.

(** ** AddSysctl *)

Record sysctl_result := mk_sysctl_result {
  sysctl_ret : Z;
  sysctl_errno : Z;
  sysctl_siz : Z;               (* [siz] after the call *)
  sysctl_buffer : mem_view      (* [buffer] after the call *)
}.

Definition sizeof_buffer : Z := 65536.

Section Sysctl.

Variable ENOMEM : Z.

(** The kernel: its answer for a name and the size offered. *)
Variable sysctl : list Z -> Z -> sysctl_result.

Definition AddSysctl (CTL : list Z) (hasher : CSHA512) : CSHA512 :=
  let r := sysctl CTL 65536 in
  if (sysctl_ret r =? 0)
     || ((sysctl_ret r =? -1) && (sysctl_errno r =? ENOMEM)) then
    let hasher :=
      shl_size_t hasher (Z.of_nat (sizeof_int * length CTL)) in
    let hasher := Write hasher (flat_map (le_bytes sizeof_int) CTL) in
    let siz :=
      if sysctl_siz r >? sizeof_buffer then sizeof_buffer
      else sysctl_siz r in
    let hasher := shl_size_t hasher siz in
    Write hasher (load (sysctl_buffer r) 0 (Z.to_nat siz))
  else hasher.

End Sysctl.

(** ** AddCPUID and AddAllCPUID *)

Record cpuid_regs := mk_cpuid_regs { ax : Z; bx : Z; cx : Z; dx : Z }.

Section Cpuid.

(** The processor: the registers after CPUID for a leaf and sub-leaf. *)
Variable GetCPUID : Z -> Z -> cpuid_regs.

Definition AddCPUID (hasher : CSHA512) (leaf subleaf : Z)
  : CSHA512 * cpuid_regs :=
  let r := GetCPUID leaf subleaf in
  (fold_left shl_uint32_t [leaf; subleaf; ax r; bx r; cx r; dx r] hasher,
   r).

(** The three [break] tests of the sub-leaf loop, in source order. *)
Definition subleaf_break (leaf : Z) (r : cpuid_regs) : bool :=
  if negb (leaf =? 4) && negb (leaf =? 11) && negb (leaf =? 13) then true
  else if ((leaf =? 4) || (leaf =? 13)) && (ax r =? 0) then true
  else if (leaf =? 11) && (Z.land (cx r) 65280 =? 0) then true
  else false.

(** [for (uint32_t subleaf = 0;; ++subleaf)], from [subleaf] on.
    [None]: the fuel ran out before the loop ended. *)
Fixpoint subleaf_loop (fuel : nat) (leaf subleaf : Z) (hasher : CSHA512)
  : option CSHA512 :=
  match fuel with
  | O => None
  | S fuel' =>
      let '(hasher', r) := AddCPUID hasher leaf subleaf in
      if subleaf_break leaf r then Some hasher'
      else subleaf_loop fuel' leaf ((subleaf + 1) mod UINT32_MOD) hasher'
  end.

(** [for (uint32_t leaf = 1; leaf <= max; ++leaf)], from [leaf] on. *)
Fixpoint leaf_loop (fuel : nat) (leaf max : Z) (hasher : CSHA512)
  : option CSHA512 :=
  match fuel with
  | O => None
  | S fuel' =>
      if leaf <=? max then
        match subleaf_loop fuel' leaf 0 hasher with
        | Some hasher' =>
            leaf_loop fuel' ((leaf + 1) mod UINT32_MOD) max hasher'
        | None => None
        end
      else Some hasher
  end.

(** [for (uint32_t leaf = 0x80000001; leaf <= ext_max; ++leaf)]. *)
Fixpoint ext_leaf_loop (fuel : nat) (leaf ext_max : Z) (hasher : CSHA512)
  : option CSHA512 :=
  match fuel with
  | O => None
  | S fuel' =>
      if leaf <=? ext_max then
        ext_leaf_loop fuel' ((leaf + 1) mod UINT32_MOD) ext_max
                      (fst (AddCPUID hasher leaf 0))
      else Some hasher
  end.

Definition AddAllCPUID (fuel : nat) (hasher : CSHA512) : option CSHA512 :=
  let '(hasher, r) := AddCPUID hasher 0 0 in
  let max := ax r in
  match leaf_loop fuel 1 max hasher with
  | Some hasher =>
      let '(hasher, r) := AddCPUID hasher 2147483648 0 in
      let ext_max := ax r in
      ext_leaf_loop fuel 2147483649 ext_max hasher
  | None => None
  end.

End Cpuid.

(** ** The environment-variable loop of RandAddStaticEnv *)

(** [environ] is null ([None]) or an array of string pointers; a null
    entry ([None]) ends it, as does the end of the list. *)
Fixpoint environ_loop (entries : list (option cstring)) (hasher : CSHA512)
  : CSHA512 :=
  match entries with
  | [] => hasher
  | None :: _ => hasher
  | Some s :: rest => environ_loop rest (Write hasher (str_bytes s (strlen s)))
  end.

(** The block under [// Env variables] of [RandAddStaticEnv]. *)
Definition RandAddStaticEnv_environ (environ : option (list (option cstring)))
    (hasher : CSHA512) : CSHA512 :=
  match environ with
  | Some entries => environ_loop entries hasher
  | None => hasher
  end.

(** ** Reference functions used in the statements *)

(** A read that fills the whole of [fbuf]. *)
Definition full_read (r : read_result) : bool :=
  match r with
  | ReadData d => (sizeof_fbuf <=? length d)%nat
  | ReadError => false
  end.

(** The reads a loop allowed [budget] reads performs: it goes on after a
    read only if that read was full. *)
Fixpoint reads_done (budget : nat) (pending : list read_result)
  : list read_result :=
  match budget, pending with
  | O, _ => []
  | _, [] => []
  | S b, r :: rest => r :: (if full_read r then reads_done b rest else [])
  end.

(** What a read contributes to the hasher. *)
Definition chunk_of (r : read_result) : list (list byte) :=
  match r with
  | ReadData d =>
      match firstn sizeof_fbuf d with
      | [] => []
      | chunk => [chunk]
      end
  | ReadError => []
  end.

(** A file of the given content whose reads deliver [sizeof_fbuf] bytes
    each time, as long as that many are left. *)
Fixpoint chunk_reads (k : nat) (content : list byte) : list read_result :=
  match k with
  | O => []
  | S k' =>
      ReadData (firstn sizeof_fbuf content)
      :: chunk_reads k' (skipn sizeof_fbuf content)
  end.

Definition stub_file (sb : option (list byte)) (content : list byte)
  : open_file :=
  mk_open_file sb (chunk_reads (length content / sizeof_fbuf + 1) content).

(** What [AddFile] writes before it starts reading. *)
Definition AddFile_header (fs : filesystem) (path : cstring)
  : list (list byte) :=
  le_bytes sizeof_int (fs_open fs path)
  :: match fstat_result (fs_file fs (fs_open fs path)) with
     | Some sb => [sb]
     | None => []
     end.

(** Each of the leaves 4, 11 and 13 up to [max] has a sub-leaf whose
    answer ends the sub-leaf loop. *)
Definition subleaves_end (GetCPUID : Z -> Z -> cpuid_regs) (max : Z) : Prop :=
  forall leaf, In leaf [4; 11; 13] -> leaf <= max ->
    exists subleaf,
      0 <= subleaf < UINT32_MOD
      /\ subleaf_break leaf (GetCPUID leaf subleaf) = true.

(** The entries of the [environ] array before its terminating null. *)
Fixpoint entries_before_null (entries : list (option cstring))
  : list cstring :=
  match entries with
  | Some s :: rest => s :: entries_before_null rest
  | _ => []
  end.

(** The bytes of a C string, without its terminator. *)
Definition c_str (s : cstring) : list byte := firstn (strlen s) s.

(** ** Concrete machines *)

Definition WIN_ERROR_SUCCESS : Z := 0.
Definition WIN_ERROR_MORE_DATA : Z := 234.
Definition WIN_ERROR_ACCESS_DENIED : Z := 5.

Definition process_start : perfmon_state := mk_perfmon_state [] 0 [].

(** A registry that delivers three bytes at once. *)
Definition registry_ok (_ : list win_call) (_ : Z) : reg_result :=
  mk_reg_result WIN_ERROR_SUCCESS 3 [x01; x02; x03].

(** A registry that refuses the query. *)
Definition registry_denied (_ : list win_call) (size : Z) : reg_result :=
  mk_reg_result WIN_ERROR_ACCESS_DENIED size [].

(** A registry whose data never fits. *)
Definition registry_more_data (_ : list win_call) (size : Z) : reg_result :=
  mk_reg_result WIN_ERROR_MORE_DATA size [].

Definition win_perfmon :=
  RandAddSeedPerfmon WIN_ERROR_SUCCESS WIN_ERROR_MORE_DATA.

(** A processor with maximum leaf 11 whose leaf 11 reports a level type
    of 1 at every sub-leaf. *)
Definition cpu_leaf11_stuck (leaf subleaf : Z) : cpuid_regs :=
  if leaf =? 0 then mk_cpuid_regs 11 0 0 0
  else if leaf =? 11 then mk_cpuid_regs 0 0 256 0
  else mk_cpuid_regs 0 0 0 0.

(** A processor with maximum leaf 4, three cache levels at leaf 4 and two
    extended leaves. *)
Definition cpu_small (leaf subleaf : Z) : cpuid_regs :=
  if leaf =? 0 then mk_cpuid_regs 4 0 0 0
  else if leaf =? 4 then
    mk_cpuid_regs (if subleaf <? 3 then 1 else 0) 0 0 0
  else if leaf =? 2147483648 then mk_cpuid_regs 2147483650 0 0 0
  else mk_cpuid_regs 0 0 0 0.

(** Linux on x86-64: the socket-address constants. *)
Definition LINUX_AF_INET : Z := 2.
Definition LINUX_AF_INET6 : Z := 10.
Definition linux_AddSockaddr :=
  AddSockaddr LINUX_AF_INET LINUX_AF_INET6 16 28 0 2.

(** An IPv6 socket address: family 10, then zeros. *)
Definition sockaddr_v6 : mem_view :=
  fun off => match off with O => x0a | _ => x00 end.

Definition LINUX_ENOMEM : Z := 12.

(** A kernel whose answer does not fit the buffer. *)
Definition sysctl_too_big (_ : list Z) (_ : Z) : sysctl_result :=
  mk_sysctl_result (-1) LINUX_ENOMEM 100000 (fun _ => x07).

(** A file system with one five-mebibyte file, opened as descriptor 3;
    no path resolves for [stat]. *)
Definition five_MiB : list byte := repeat x41 (Z.to_nat 5242880).

Definition fs_big_file : filesystem :=
  mk_filesystem (fun _ => 3) (fun _ => stub_file None five_MiB)
                (fun _ => None).

(** A file system where only the root resolves. *)
Definition fs_root_only : filesystem :=
  mk_filesystem (fun _ => -1) (fun _ => mk_open_file None [])
                (fun p => match p with
                          | [x2f] => Some [x01; x02]
                          | _ => None
                          end).

(** ["A=1"] and ["B=2"]. *)
Definition env_two : list (option cstring) :=
  [Some [x41; x3d; x31]; Some [x42; x3d; x32]].

(** ** Calls of RandAddSeedPerfmon in sequence *)

(** The collector called once at each of the given clock readings. *)
Definition perfmon_calls (ERROR_SUCCESS ERROR_MORE_DATA : Z)
    (RegQueryValueExA : list win_call -> Z -> reg_result)
    (times : list Z) (st : perfmon_state) : perfmon_state :=
  fold_left
    (fun st t =>
       RandAddSeedPerfmon ERROR_SUCCESS ERROR_MORE_DATA RegQueryValueExA t st)
    times st.

(** ** The queries of the CPUID enumeration *)

(** The six writes of one [AddCPUID]. *)
Definition cpuid_writes (GetCPUID : Z -> Z -> cpuid_regs) (leaf subleaf : Z)
  : list (list byte) :=
  let r := GetCPUID leaf subleaf in
  map (le_bytes sizeof_uint32_t) [leaf; subleaf; ax r; bx r; cx r; dx r].

Definition query_writes (GetCPUID : Z -> Z -> cpuid_regs) (q : Z * Z)
  : list (list byte) :=
  cpuid_writes GetCPUID (fst q) (snd q).

(** [n] consecutive numbers from [start]. *)
Definition Z_range (start : Z) (n : nat) : list Z :=
  map (fun i => start + Z.of_nat i) (seq 0 n).

(** The queries of one leaf: its sub-leaves 0 to [last]. *)
Definition leaf_queries (last : Z -> Z) (leaf : Z) : list (Z * Z) :=
  map (fun subleaf => (leaf, subleaf)) (Z_range 0 (S (Z.to_nat (last leaf)))).

(** All queries, in order: leaf 0, the standard leaves with their
    sub-leaves, leaf 0x80000000, the extended leaves. *)
Definition all_queries (last : Z -> Z) (max ext_max : Z) : list (Z * Z) :=
  (0, 0)
  :: flat_map (leaf_queries last) (Z_range 1 (Z.to_nat max))
  ++ (2147483648, 0)
  :: map (fun leaf => (leaf, 0))
         (Z_range 2147483649 (Z.to_nat (ext_max - 2147483648))).

(** [last leaf] is the first sub-leaf of [leaf] whose answer ends the
    sub-leaf loop. *)
Definition first_break (GetCPUID : Z -> Z -> cpuid_regs) (last : Z -> Z)
    (leaf : Z) : Prop :=
  0 <= last leaf < UINT32_MOD
  /\ subleaf_break leaf (GetCPUID leaf (last leaf)) = true
  /\ (forall s, 0 <= s < last leaf ->
        subleaf_break leaf (GetCPUID leaf s) = false).

(** ** What AddFile adds *)

(** The writes of [AddFile] for a path: none when the file cannot be
    opened, else the descriptor, the [fstat] result and the chunks read. *)
Definition AddFile_writes (fs : filesystem) (path : cstring)
  : list (list byte) :=
  if fs_open fs path =? -1 then []
  else
    AddFile_header fs path
    ++ flat_map chunk_of
         (reads_done 256 (pending_reads (fs_file fs (fs_open fs path)))).

(** The size of what [fstat] delivered for the file, if anything. *)
Definition fstat_size (fs : filesystem) (path : cstring) : nat :=
  match fstat_result (fs_file fs (fs_open fs path)) with
  | Some sb => length sb
  | None => O
  end.

(** ** More blocks of RandAddStaticEnv *)

Definition sizeof_pointer : nat := 8.

Fixpoint strnlen (s : cstring) (maxlen : nat) : nat :=
  match maxlen, s with
  | O, _ => O
  | _, [] => O
  | S m, b :: rest => if Byte.eqb b Byte.x00 then O else S (strnlen rest m)
  end.

(** The block under [// Hostname]: [gethostname] gives its return value
    and the contents of [hname] after the call. *)
Definition RandAddStaticEnv_hostname (gethostname : Z * mem_view)
    (hasher : CSHA512) : CSHA512 :=
  let '(ret, hname) := gethostname in
  if ret =? 0 then
    Write hasher (load hname 0 (strnlen (load hname 0 256) 256))
  else hasher.

(** One node of the list [getifaddrs] returns; the list of nodes follows
    the [ifa_next] pointers up to the null one. *)
Record ifaddrs := mk_ifaddrs {
  ifa_self : Z;                     (* the address of the node *)
  ifa_name : cstring;
  ifa_flags : Z;
  ifa_addr : option mem_view;
  ifa_netmask : option mem_view;
  ifa_dstaddr : option mem_view
}.

Section Interfaces.

Variables AF_INET AF_INET6 : Z.
Variables sizeof_sockaddr_in sizeof_sockaddr_in6 : nat.
Variables offsetof_sa_family sizeof_sa_family : nat.

(** The block under [// Network interfaces]; the list is empty when
    [getifaddrs] leaves [ifad] null. *)
Fixpoint RandAddStaticEnv_ifaddrs (ifit : list ifaddrs) (hasher : CSHA512)
  : CSHA512 :=
  match ifit with
  | [] => hasher
  | i :: next =>
      let add :=
        AddSockaddr AF_INET AF_INET6 sizeof_sockaddr_in sizeof_sockaddr_in6
                    offsetof_sa_family sizeof_sa_family in
      let hasher := Write hasher (le_bytes sizeof_pointer (ifa_self i)) in
      let hasher :=
        Write hasher (str_bytes (ifa_name i) (strlen (ifa_name i) + 1)) in
      let hasher := Write hasher (le_bytes sizeof_int (ifa_flags i)) in
      let hasher := add hasher (ifa_addr i) in
      let hasher := add hasher (ifa_netmask i) in
      let hasher := add hasher (ifa_dstaddr i) in
      RandAddStaticEnv_ifaddrs next hasher
  end.

End Interfaces.



Record utsname := mk_utsname {
  sysname : cstring;
  nodename : cstring;
  release : cstring;
  version : cstring;
  machine : cstring
}.

(** The block under [// UNIX kernel information]; [None] is [uname]
    returning -1. *)
Definition RandAddStaticEnv_uname (uname : option utsname) (hasher : CSHA512)
  : CSHA512 :=
  match uname with
  | Some name =>
      let put h s := Write h (str_bytes s (strlen s + 1)) in
      put (put (put (put (put hasher (sysname name)) (nodename name))
                    (release name)) (version name)) (machine name)
  | None => hasher
  end.

(** ** RandAddDynamicEnv (Linux) *)

Module ProcFiles.
Import String.
Local Open Scope string_scope.



End ProcFiles.







(** ** More concrete machines *)

(** Sub-leaf 3 ends leaf 4 of [cpu_small]; sub-leaf 0 ends the others. *)
Definition cpu_small_last (leaf : Z) : Z := if leaf =? 4 then 3 else 0.

(** A loopback interface with an IPv4 address and netmask and no
    destination. *)
Definition sockaddr_v4 : mem_view :=
  fun off => match off with O => x02 | _ => x00 end.

Definition if_lo : ifaddrs :=
  mk_ifaddrs 93824992236000 [x6c; x6f] 65609
             (Some sockaddr_v4) (Some sockaddr_v4) None.

Definition linux_ifaddrs :=
  RandAddStaticEnv_ifaddrs LINUX_AF_INET LINUX_AF_INET6 16 28 0 2.

(** A kernel that answers the query in full with 16 bytes. *)
Definition sysctl_loadavg (_ : list Z) (_ : Z) : sysctl_result :=
  mk_sysctl_result 0 0 16 (fun _ => x01).

(** A file system with one file of three bytes, opened as descriptor 4. *)
Definition fs_small_file : filesystem :=
  mk_filesystem (fun _ => 4) (fun _ => stub_file None [x61; x62; x63])
                (fun _ => None).


(* ===================================================================== *)
(** * Part II: properties                                                 *)
(* ===================================================================== *)

(** ** Bytes, memory and call logs *)

Lemma le_bytes_length (n : nat) (v : Z) : length (le_bytes n v) = n.
Proof.
  revert v. induction n as [|n IH]; intros v; simpl; [|rewrite IH]; reflexivity.
Qed.

Lemma load_length (m : mem_view) (off n : nat) : length (load m off n) = n.
Proof. unfold load. now rewrite length_map, length_seq. Qed.

Lemma count_collections_app (a b : list win_call) :
  count_collections (a ++ b)
  = (count_collections a + count_collections b)%nat.
Proof. unfold count_collections. now rewrite filter_app, length_app. Qed.

Lemma count_queries_app (a b : list win_call) :
  count_queries (a ++ b) = (count_queries a + count_queries b)%nat.
Proof. unfold count_queries. now rewrite filter_app, length_app. Qed.

Lemma query_sizes_app (a b : list win_call) :
  query_sizes (a ++ b) = query_sizes a ++ query_sizes b.
Proof. unfold query_sizes. apply flat_map_app. Qed.

(** ** RandAddSeedPerfmon *)

Section PerfmonFacts.

Variables ERROR_SUCCESS ERROR_MORE_DATA : Z.
Variable RegQueryValueExA : list win_call -> Z -> reg_result.

Local Abbreviation loop := (perfmon_loop ERROR_MORE_DATA RegQueryValueExA).
Local Abbreviation run :=
  (RandAddSeedPerfmon ERROR_SUCCESS ERROR_MORE_DATA RegQueryValueExA).

(** One turn of the [while (true)] loop. *)
Lemma perfmon_loop_step (size : Z) (calls : list win_call) :
  loop size calls =
  if perfmon_stop ERROR_MORE_DATA (RegQueryValueExA calls size) size
  then (RegQueryValueExA calls size, calls ++ [CallRegQueryValueExA size])
  else loop (perfmon_resize size) (calls ++ [CallRegQueryValueExA size]).
Proof.
  rewrite perfmon_loop_equation_1.
  destruct (inspect (perfmon_stop ERROR_MORE_DATA
                       (RegQueryValueExA calls size) size)) as [b e].
  destruct b; simpl; rewrite e; reflexivity.
Qed.

Lemma perfmon_resize_reaches_cap (size : Z) : nMaxSize <= perfmon_resize size.
Proof. unfold perfmon_resize. lia. Qed.

Lemma perfmon_loop_at_cap (size : Z) (calls : list win_call) :
  nMaxSize <= size ->
  loop size calls
  = (RegQueryValueExA calls size, calls ++ [CallRegQueryValueExA size]).
Proof.
  intros Hcap. rewrite perfmon_loop_step. unfold perfmon_stop.
  replace (size >=? nMaxSize) with true by (symmetry; apply Z.geb_le; lia).
  now rewrite orb_true_r.
Qed.

(** The loop asks once, or twice when the first answer is
    [ERROR_MORE_DATA] and the buffer is below the cap; the second buffer
    is the resized one. *)
Lemma perfmon_loop_shape (size : Z) (calls : list win_call) :
  let first := RegQueryValueExA calls size in
  let calls1 := calls ++ [CallRegQueryValueExA size] in
  (perfmon_stop ERROR_MORE_DATA first size = true
   /\ loop size calls = (first, calls1))
  \/
  (perfmon_stop ERROR_MORE_DATA first size = false
   /\ loop size calls
      = (RegQueryValueExA calls1 (perfmon_resize size),
         calls1 ++ [CallRegQueryValueExA (perfmon_resize size)])).
Proof.
  intros first calls1. rewrite perfmon_loop_step. fold first.
  destruct (perfmon_stop ERROR_MORE_DATA first size) eqn:Hstop.
  - left. now split.
  - right. split; [reflexivity|].
    apply perfmon_loop_at_cap, perfmon_resize_reaches_cap.
Qed.

Lemma perfmon_skip (t : Z) (st : perfmon_state) :
  t < last_perfmon st + perfmon_cooldown -> run t st = st.
Proof.
  intros Hlt. unfold RandAddSeedPerfmon.
  now replace (t <? last_perfmon st + perfmon_cooldown) with true
    by (symmetry; apply Z.ltb_lt; exact Hlt).
Qed.

(** What a call that passes the gate does. *)
Lemma perfmon_due (t : Z) (st : perfmon_state) :
  last_perfmon st + perfmon_cooldown <= t ->
  let r := fst (loop 250000 (os_calls st)) in
  run t st
  = mk_perfmon_state
      (if reg_ret r =? ERROR_SUCCESS
       then Write (hasher st)
                  (firstn (Z.to_nat (reg_nSize r)) (reg_vData r))
       else hasher st)
      t
      (snd (loop 250000 (os_calls st)) ++ [CallRegCloseKey]).
Proof.
  intros Hge r. unfold RandAddSeedPerfmon.
  replace (t <? last_perfmon st + perfmon_cooldown) with false
    by (symmetry; apply Z.ltb_ge; exact Hge).
  subst r. destruct (loop 250000 (os_calls st)) as [r calls].
  simpl. now destruct (reg_ret r =? ERROR_SUCCESS).
Qed.

Lemma perfmon_due_counts (t : Z) (st : perfmon_state) :
  last_perfmon st + perfmon_cooldown <= t ->
  last_perfmon (run t st) = t
  /\ count_collections (os_calls (run t st))
     = S (count_collections (os_calls st))
  /\ (count_queries (os_calls (run t st)) = S (count_queries (os_calls st))
      \/ (reg_ret (RegQueryValueExA (os_calls st) 250000) = ERROR_MORE_DATA
          /\ count_queries (os_calls (run t st))
             = S (S (count_queries (os_calls st))))).
Proof.
  intros Hge. rewrite (perfmon_due t st Hge). simpl.
  split; [reflexivity|].
  destruct (perfmon_loop_shape 250000 (os_calls st)) as [[Hs ->]|[Hs ->]];
    simpl; rewrite ?count_collections_app, ?count_queries_app;
    unfold count_collections, count_queries; simpl.
  - split; [lia|left; lia].
  - split; [lia|right]. split; [|lia].
    unfold perfmon_stop in Hs. apply orb_false_iff in Hs.
    destruct Hs as [Hs _]. apply negb_false_iff in Hs.
    now apply Z.eqb_eq.
Qed.

(** The buffer sizes offered to the registry in one collection: the
    initial 250000 bytes, and after an [ERROR_MORE_DATA] the cap itself. *)
Lemma perfmon_query_sizes (t : Z) (st : perfmon_state) :
  last_perfmon st + perfmon_cooldown <= t ->
  query_sizes (os_calls (run t st)) = query_sizes (os_calls st) ++ [250000]
  \/ query_sizes (os_calls (run t st))
     = query_sizes (os_calls st) ++ [250000; nMaxSize].
Proof.
  intros Hge. rewrite (perfmon_due t st Hge). simpl.
  destruct (perfmon_loop_shape 250000 (os_calls st)) as [[_ ->]|[_ ->]];
    simpl; rewrite !query_sizes_app; simpl.
  - left. now rewrite app_nil_r.
  - right. rewrite app_nil_r, <- app_assoc. reflexivity.
Qed.

(** C1 (amended).  A call made while [current_time < last_perfmon + 10
    minutes] returns the process unchanged: nothing is written to the
    hasher and the registry is not queried.  When the first of two calls
    passes the gate ([last_perfmon + 10 minutes <= current_time]; from
    process start, where [last_perfmon] is 0, at or after second 600), a
    second call 5 minutes later changes nothing, so the collection has run
    exactly once, and a second call 11 minutes later makes it run exactly
    twice.  A collection is one registry query, or two when the first
    answers [ERROR_MORE_DATA]. *)
Theorem RandAddSeedPerfmon_cooldown (t : Z) (st : perfmon_state) :
  (t < last_perfmon st + perfmon_cooldown -> run t st = st)
  /\ (last_perfmon st + perfmon_cooldown <= t ->
      let st1 := run t st in
      let st5 := run (t + 5 * 60) st1 in
      let st11 := run (t + 11 * 60) st1 in
      st5 = st1
      /\ count_collections (os_calls st5)
         = S (count_collections (os_calls st))
      /\ count_collections (os_calls st11)
         = S (S (count_collections (os_calls st)))
      /\ ((forall calls size,
             reg_ret (RegQueryValueExA calls size) <> ERROR_MORE_DATA) ->
          count_queries (os_calls st5) = S (count_queries (os_calls st))
          /\ count_queries (os_calls st11)
             = S (S (count_queries (os_calls st))))).
Proof.
  split; [apply perfmon_skip|].
  intros Hge st1 st5 st11.
  destruct (perfmon_due_counts t st Hge) as (Hlast & Hcol & Hq).
  fold st1 in Hlast, Hcol, Hq.
  assert (H5 : st5 = st1).
  { apply perfmon_skip. rewrite Hlast. unfold perfmon_cooldown. lia. }
  assert (Hge11 : last_perfmon st1 + perfmon_cooldown <= t + 11 * 60).
  { rewrite Hlast. unfold perfmon_cooldown. lia. }
  destruct (perfmon_due_counts (t + 11 * 60) st1 Hge11) as (_ & Hcol11 & Hq11).
  fold st11 in Hcol11, Hq11.
  rewrite H5. repeat split.
  - exact Hcol.
  - rewrite Hcol11, Hcol. reflexivity.
  - destruct Hq as [Hq|[Hmore _]]; [exact Hq|].
    now apply H in Hmore.
  - destruct Hq11 as [Hq11|[Hmore _]]; [|now apply H in Hmore].
    destruct Hq as [Hq|[Hmore _]]; [|now apply H in Hmore].
    rewrite Hq11, Hq. reflexivity.
Qed.

(** C3 (amended).  [last_perfmon] is set to the current time exactly when
    the call passes the ten-minute gate, before the registry is queried
    and whatever the query returns; a call inside the cooldown leaves it
    as it was.  In particular a failed query leaves the hasher unchanged
    and [last_perfmon] equal to the current time. *)
Theorem last_perfmon_set_at_gate (t : Z) (st : perfmon_state) :
  last_perfmon (run t st)
  = (if t <? last_perfmon st + perfmon_cooldown then last_perfmon st else t)
  /\ (last_perfmon st + perfmon_cooldown <= t ->
      reg_ret (fst (loop 250000 (os_calls st))) <> ERROR_SUCCESS ->
      last_perfmon (run t st) = t /\ hasher (run t st) = hasher st).
Proof.
  split.
  - destruct (Z.ltb_spec t (last_perfmon st + perfmon_cooldown)) as [Hlt|Hge].
    + now rewrite perfmon_skip.
    + now rewrite (perfmon_due t st Hge).
  - intros Hge Hfail. rewrite (perfmon_due t st Hge). simpl.
    split; [reflexivity|].
    apply Z.eqb_neq in Hfail. now rewrite Hfail.
Qed.

End PerfmonFacts.

Lemma RandAddSeedPerfmon_cooldown_witness :
  win_perfmon registry_ok 100 process_start = process_start
  /\ count_collections
       (os_calls (win_perfmon registry_ok (1000 + 5 * 60)
                    (win_perfmon registry_ok 1000 process_start)))
     = 1%nat.
Proof.
  split.
  - apply (proj1 (RandAddSeedPerfmon_cooldown
                    WIN_ERROR_SUCCESS WIN_ERROR_MORE_DATA registry_ok
                    100 process_start)).
    vm_compute. reflexivity.
  - destruct (proj2 (RandAddSeedPerfmon_cooldown
                       WIN_ERROR_SUCCESS WIN_ERROR_MORE_DATA registry_ok
                       1000 process_start)) as (_ & Honce & _).
    + vm_compute. discriminate.
    + exact Honce.
Defined.

(** At second 60 after a start with [last_perfmon] 0 the first call is
    itself inside the cooldown: two calls 5 minutes apart query the
    registry not at all, and two calls 11 minutes apart query it once. *)
Lemma RandAddSeedPerfmon_early_counterexample :
  let st1 := win_perfmon registry_ok 60 process_start in
  let st5 := win_perfmon registry_ok (60 + 5 * 60) st1 in
  let st11 := win_perfmon registry_ok (60 + 11 * 60) st1 in
  count_queries (os_calls st5) = 0%nat
  /\ count_queries (os_calls st5) <> 1%nat
  /\ count_queries (os_calls st11) = 1%nat
  /\ count_queries (os_calls st11) <> 2%nat.
Proof. vm_compute. repeat split; discriminate. Qed.

Lemma last_perfmon_set_at_gate_witness :
  last_perfmon (win_perfmon registry_denied 1000 process_start) = 1000
  /\ hasher (win_perfmon registry_denied 1000 process_start) = [].
Proof.
  apply (proj2 (last_perfmon_set_at_gate
                  WIN_ERROR_SUCCESS WIN_ERROR_MORE_DATA registry_denied
                  1000 process_start)).
  - vm_compute. discriminate.
  - vm_compute. discriminate.
Defined.

(** A refused query at second 1000: nothing is collected, yet
    [last_perfmon] moves from 0 to 1000. *)
Lemma last_perfmon_failed_query_counterexample :
  reg_ret (fst (perfmon_loop WIN_ERROR_MORE_DATA registry_denied 250000 []))
  <> WIN_ERROR_SUCCESS
  /\ hasher (win_perfmon registry_denied 1000 process_start) = []
  /\ last_perfmon process_start = 0
  /\ last_perfmon (win_perfmon registry_denied 1000 process_start) = 1000.
Proof. vm_compute. repeat split. discriminate. Qed.

(** C2 (code evaluated at the failing input).  With a registry that
    answers [ERROR_MORE_DATA] to every query, the collection offers 250000
    bytes and then 10000000 bytes at once: the size 375000 that growth by
    3/2 would give is never tried, and what the last query left in the
    buffer is not written to the hasher. *)
Theorem perfmon_buffer_jumps_to_cap :
  let st := win_perfmon registry_more_data 1000 process_start in
  query_sizes (os_calls st) = [250000; 10000000]
  /\ ~ In ((250000 * 3) / 2) (query_sizes (os_calls st))
  /\ hasher st = [].
Proof.
  vm_compute. repeat split.
  intros [H|[H|[]]]; discriminate H.
Qed.

(** ** AddAllCPUID *)

Lemma UINT32_MOD_value : UINT32_MOD = 4294967296.
Proof. reflexivity. Qed.

Lemma uint32_succ (v : Z) :
  0 <= v < UINT32_MOD - 1 -> (v + 1) mod UINT32_MOD = v + 1.
Proof. rewrite UINT32_MOD_value. intros Hv. apply Z.mod_small. lia. Qed.

Ltac fuel_step :=
  match goal with
  | H : (S _ <= ?n)%nat |- _ =>
      destruct n as [|?]; [exfalso; lia | apply le_S_n in H]
  end.

Section CpuidFacts.

Variable GetCPUID : Z -> Z -> cpuid_regs.

Lemma subleaf_loop_S (fuel : nat) (leaf subleaf : Z) (hasher : CSHA512) :
  subleaf_loop GetCPUID (S fuel) leaf subleaf hasher
  = if subleaf_break leaf (GetCPUID leaf subleaf)
    then Some (fst (AddCPUID GetCPUID hasher leaf subleaf))
    else subleaf_loop GetCPUID fuel leaf ((subleaf + 1) mod UINT32_MOD)
                      (fst (AddCPUID GetCPUID hasher leaf subleaf)).
Proof. reflexivity. Qed.

Lemma leaf_loop_S (fuel : nat) (leaf max : Z) (hasher : CSHA512) :
  leaf_loop GetCPUID (S fuel) leaf max hasher
  = if leaf <=? max then
      match subleaf_loop GetCPUID fuel leaf 0 hasher with
      | Some hasher' =>
          leaf_loop GetCPUID fuel ((leaf + 1) mod UINT32_MOD) max hasher'
      | None => None
      end
    else Some hasher.
Proof. reflexivity. Qed.

Lemma ext_leaf_loop_S (fuel : nat) (leaf ext_max : Z) (hasher : CSHA512) :
  ext_leaf_loop GetCPUID (S fuel) leaf ext_max hasher
  = if leaf <=? ext_max then
      ext_leaf_loop GetCPUID fuel ((leaf + 1) mod UINT32_MOD) ext_max
                    (fst (AddCPUID GetCPUID hasher leaf 0))
    else Some hasher.
Proof. reflexivity. Qed.

(** More fuel does not change a result. *)
Lemma subleaf_loop_mono (fuel fuel' : nat) (leaf subleaf : Z)
    (hasher result : CSHA512) :
  subleaf_loop GetCPUID fuel leaf subleaf hasher = Some result ->
  (fuel <= fuel')%nat ->
  subleaf_loop GetCPUID fuel' leaf subleaf hasher = Some result.
Proof.
  revert fuel' subleaf hasher.
  induction fuel as [|fuel IH]; intros fuel' subleaf hasher Hrun Hle;
    [discriminate|].
  fuel_step. rewrite subleaf_loop_S in *.
  destruct (subleaf_break leaf (GetCPUID leaf subleaf)); [exact Hrun|].
  now apply IH.
Qed.

Lemma leaf_loop_mono (fuel fuel' : nat) (leaf max : Z)
    (hasher result : CSHA512) :
  leaf_loop GetCPUID fuel leaf max hasher = Some result ->
  (fuel <= fuel')%nat ->
  leaf_loop GetCPUID fuel' leaf max hasher = Some result.
Proof.
  revert fuel' leaf hasher.
  induction fuel as [|fuel IH]; intros fuel' leaf hasher Hrun Hle;
    [discriminate|].
  fuel_step. rewrite leaf_loop_S in *.
  destruct (leaf <=? max); [|exact Hrun].
  destruct (subleaf_loop GetCPUID fuel leaf 0 hasher) as [h1|] eqn:Hsub;
    [|discriminate].
  rewrite (subleaf_loop_mono _ _ _ _ _ _ Hsub Hle). now apply IH.
Qed.

Lemma ext_leaf_loop_mono (fuel fuel' : nat) (leaf ext_max : Z)
    (hasher result : CSHA512) :
  ext_leaf_loop GetCPUID fuel leaf ext_max hasher = Some result ->
  (fuel <= fuel')%nat ->
  ext_leaf_loop GetCPUID fuel' leaf ext_max hasher = Some result.
Proof.
  revert fuel' leaf hasher.
  induction fuel as [|fuel IH]; intros fuel' leaf hasher Hrun Hle;
    [discriminate|].
  fuel_step. rewrite ext_leaf_loop_S in *.
  destruct (leaf <=? ext_max); [|exact Hrun]. now apply IH.
Qed.

(** Only the leaves 4, 11 and 13 ever go past sub-leaf 0. *)
Lemma subleaf_break_other_leaf (leaf : Z) (r : cpuid_regs) :
  ~ In leaf [4; 11; 13] -> subleaf_break leaf r = true.
Proof.
  intros Hother. unfold subleaf_break.
  destruct (Z.eqb_spec leaf 4) as [->|_]; [exfalso; apply Hother; simpl; tauto|].
  destruct (Z.eqb_spec leaf 11) as [->|_];
    [exfalso; apply Hother; simpl; tauto|].
  destruct (Z.eqb_spec leaf 13) as [->|_];
    [exfalso; apply Hother; simpl; tauto|].
  reflexivity.
Qed.

(** The sub-leaf loop ends once it meets a sub-leaf whose answer breaks. *)
Lemma subleaf_loop_reaches (n : nat) (leaf subleaf : Z) (hasher : CSHA512) :
  0 <= subleaf ->
  subleaf + Z.of_nat n < UINT32_MOD ->
  subleaf_break leaf (GetCPUID leaf (subleaf + Z.of_nat n)) = true ->
  exists fuel result,
    subleaf_loop GetCPUID fuel leaf subleaf hasher = Some result.
Proof.
  revert subleaf hasher.
  induction n as [|n IH]; intros subleaf hasher Hpos Hlt Hbreak.
  - exists 1%nat. rewrite subleaf_loop_S.
    replace (subleaf + Z.of_nat 0) with subleaf in Hbreak by lia.
    rewrite Hbreak. eauto.
  - destruct (subleaf_break leaf (GetCPUID leaf subleaf)) eqn:Hhere.
    + exists 1%nat. rewrite subleaf_loop_S, Hhere. eauto.
    + destruct (IH (subleaf + 1)
                   (fst (AddCPUID GetCPUID hasher leaf subleaf)))
        as (fuel & result & Hrun); try lia.
      * now replace (subleaf + 1 + Z.of_nat n)
          with (subleaf + Z.of_nat (S n)) by lia.
      * exists (S fuel), result. rewrite subleaf_loop_S, Hhere.
        rewrite uint32_succ by lia. exact Hrun.
Qed.

Lemma subleaf_loop_terminates (leaf max : Z) (hasher : CSHA512) :
  subleaves_end GetCPUID max -> leaf <= max ->
  exists fuel result, subleaf_loop GetCPUID fuel leaf 0 hasher = Some result.
Proof.
  intros Hend Hle.
  destruct (in_dec Z.eq_dec leaf [4; 11; 13]) as [Hin|Hout].
  - destruct (Hend leaf Hin Hle) as (s & Hs & Hbreak).
    apply (subleaf_loop_reaches (Z.to_nat s)); try lia.
    now replace (0 + Z.of_nat (Z.to_nat s)) with s by lia.
  - exists 1%nat. rewrite subleaf_loop_S.
    rewrite (subleaf_break_other_leaf _ _ Hout). eauto.
Qed.

Lemma leaf_loop_terminates (n : nat) (leaf max : Z) (hasher : CSHA512) :
  subleaves_end GetCPUID max -> max < UINT32_MOD - 1 -> 0 <= leaf ->
  max + 1 - leaf <= Z.of_nat n ->
  exists fuel result, leaf_loop GetCPUID fuel leaf max hasher = Some result.
Proof.
  intros Hend Hmax. revert leaf hasher.
  induction n as [|n IH]; intros leaf hasher Hpos Hn.
  - exists 1%nat. rewrite leaf_loop_S.
    replace (leaf <=? max) with false by (symmetry; apply Z.leb_gt; lia).
    eauto.
  - destruct (Z.leb_spec leaf max) as [Hle|Hgt].
    + destruct (subleaf_loop_terminates leaf max hasher Hend Hle)
        as (f1 & h1 & Hsub).
      destruct (IH (leaf + 1) h1) as (f2 & h2 & Hrest); try lia.
      exists (S (Nat.max f1 f2)), h2. rewrite leaf_loop_S.
      replace (leaf <=? max) with true by (symmetry; apply Z.leb_le; lia).
      rewrite (subleaf_loop_mono _ _ _ _ _ _ Hsub (Nat.le_max_l f1 f2)).
      rewrite uint32_succ by lia.
      exact (leaf_loop_mono _ _ _ _ _ _ Hrest (Nat.le_max_r f1 f2)).
    + exists 1%nat. rewrite leaf_loop_S.
      replace (leaf <=? max) with false by (symmetry; apply Z.leb_gt; lia).
      eauto.
Qed.

Lemma ext_leaf_loop_terminates (n : nat) (leaf ext_max : Z)
    (hasher : CSHA512) :
  ext_max < UINT32_MOD - 1 -> 0 <= leaf ->
  ext_max + 1 - leaf <= Z.of_nat n ->
  exists fuel result,
    ext_leaf_loop GetCPUID fuel leaf ext_max hasher = Some result.
Proof.
  intros Hmax. revert leaf hasher.
  induction n as [|n IH]; intros leaf hasher Hpos Hn.
  - exists 1%nat. rewrite ext_leaf_loop_S.
    replace (leaf <=? ext_max) with false by (symmetry; apply Z.leb_gt; lia).
    eauto.
  - destruct (Z.leb_spec leaf ext_max) as [Hle|Hgt].
    + destruct (IH (leaf + 1) (fst (AddCPUID GetCPUID hasher leaf 0)))
        as (fuel & result & Hrest); try lia.
      exists (S fuel), result. rewrite ext_leaf_loop_S.
      replace (leaf <=? ext_max) with true
        by (symmetry; apply Z.leb_le; lia).
      rewrite uint32_succ by lia. exact Hrest.
    + exists 1%nat. rewrite ext_leaf_loop_S.
      replace (leaf <=? ext_max) with false
        by (symmetry; apply Z.leb_gt; lia).
      eauto.
Qed.

Lemma AddAllCPUID_unfold (fuel : nat) (hasher : CSHA512) :
  AddAllCPUID GetCPUID fuel hasher
  = match leaf_loop GetCPUID fuel 1 (ax (GetCPUID 0 0))
            (fst (AddCPUID GetCPUID hasher 0 0)) with
    | Some h =>
        ext_leaf_loop GetCPUID fuel 2147483649 (ax (GetCPUID 2147483648 0))
                      (fst (AddCPUID GetCPUID h 2147483648 0))
    | None => None
    end.
Proof. reflexivity. Qed.

(** C4 (amended).  The sub-leaf loop has no bound of its own: it ends at
    the first sub-leaf whose answer meets the leaf's own test ([ax == 0]
    for leaves 4 and 13, [(cx & 0xFF00) == 0] for leaf 11).  The
    enumeration returns, for every amount of fuel from some amount on and
    with one and the same hasher, whenever the maximum standard leaf and
    the maximum extended leaf reported are below 0xFFFFFFFF and each of the
    leaves 4, 11 and 13 within the maximum has such a sub-leaf. *)
Theorem AddAllCPUID_terminates (hasher : CSHA512) :
  ax (GetCPUID 0 0) < UINT32_MOD - 1 ->
  ax (GetCPUID 2147483648 0) < UINT32_MOD - 1 ->
  (forall leaf, In leaf [4; 11; 13] -> leaf <= ax (GetCPUID 0 0) ->
     exists subleaf,
       0 <= subleaf < UINT32_MOD
       /\ subleaf_break leaf (GetCPUID leaf subleaf) = true) ->
  exists fuel result,
    forall fuel', (fuel <= fuel')%nat ->
      AddAllCPUID GetCPUID fuel' hasher = Some result.
Proof.
  intros Hmax Hext Hend.
  destruct (leaf_loop_terminates
              (Z.to_nat (ax (GetCPUID 0 0))) 1 (ax (GetCPUID 0 0))
              (fst (AddCPUID GetCPUID hasher 0 0)) Hend Hmax)
    as (f1 & h1 & Hstd); try lia.
  destruct (ext_leaf_loop_terminates
              (Z.to_nat (ax (GetCPUID 2147483648 0)))
              2147483649 (ax (GetCPUID 2147483648 0))
              (fst (AddCPUID GetCPUID h1 2147483648 0)) Hext)
    as (f2 & h2 & Hx); try lia.
  exists (Nat.max f1 f2), h2. intros fuel' Hfuel.
  rewrite AddAllCPUID_unfold.
  rewrite (leaf_loop_mono _ _ _ _ _ _ Hstd) by lia.
  apply (ext_leaf_loop_mono _ _ _ _ _ _ Hx). lia.
Qed.

End CpuidFacts.

Lemma AddAllCPUID_terminates_witness :
  exists fuel result,
    forall fuel', (fuel <= fuel')%nat ->
      AddAllCPUID cpu_small fuel' [] = Some result.
Proof.
  apply (AddAllCPUID_terminates cpu_small []).
  - vm_compute. reflexivity.
  - vm_compute. reflexivity.
  - intros leaf Hin Hle. exists 3.
    split; [rewrite UINT32_MOD_value; lia|].
    simpl in Hin. destruct Hin as [<-|[<-|[<-|[]]]].
    + reflexivity.
    + cbn in Hle. lia.
    + cbn in Hle. lia.
Defined.

Lemma cpu_leaf11_subleaves_never_end (fuel : nat) (subleaf : Z)
    (hasher : CSHA512) :
  subleaf_loop cpu_leaf11_stuck fuel 11 subleaf hasher = None.
Proof.
  revert subleaf hasher.
  induction fuel as [|fuel IH]; intros subleaf hasher; [reflexivity|].
  rewrite subleaf_loop_S.
  change (subleaf_break 11 (cpu_leaf11_stuck 11 subleaf)) with false.
  apply IH.
Qed.

Lemma cpu_leaf11_leaves_never_end (fuel : nat) (leaf : Z) (hasher : CSHA512) :
  1 <= leaf <= 11 -> leaf_loop cpu_leaf11_stuck fuel leaf 11 hasher = None.
Proof.
  revert leaf hasher.
  induction fuel as [|fuel IH]; intros leaf hasher Hleaf; [reflexivity|].
  rewrite leaf_loop_S.
  replace (leaf <=? 11) with true by (symmetry; apply Z.leb_le; lia).
  destruct (Z.eq_dec leaf 11) as [->|Hne].
  - now rewrite cpu_leaf11_subleaves_never_end.
  - destruct (subleaf_loop cpu_leaf11_stuck fuel leaf 0 hasher);
      [|reflexivity].
    rewrite uint32_succ by (rewrite UINT32_MOD_value; lia).
    apply IH. lia.
Qed.

(** A processor that reports maximum leaf 11 and a level type of 1 at
    every sub-leaf of leaf 11: no amount of fuel lets the enumeration
    return. *)
Lemma AddAllCPUID_leaf11_counterexample :
  ~ exists fuel result, AddAllCPUID cpu_leaf11_stuck fuel [] = Some result.
Proof.
  intros (fuel & result & Hrun).
  rewrite AddAllCPUID_unfold in Hrun.
  change (ax (cpu_leaf11_stuck 0 0)) with 11 in Hrun.
  rewrite cpu_leaf11_leaves_never_end in Hrun by lia.
  discriminate.
Qed.

(** ** AddFile and AddPath *)

Lemma SIZE_MOD_value : SIZE_MOD = 18446744073709551616.
Proof. reflexivity. Qed.

Lemma sizeof_fbuf_value : Z.of_nat sizeof_fbuf = 4096.
Proof. reflexivity. Qed.

Lemma firstn_plus {A : Type} (a b : nat) (l : list A) :
  firstn (a + b) l = firstn a l ++ firstn b (skipn a l).
Proof.
  revert l. induction a as [|a IH]; intros l; [reflexivity|].
  destruct l as [|x l]; simpl.
  - now rewrite firstn_nil.
  - now rewrite IH.
Qed.

Lemma AddFile_loop_nil (total : Z) (hasher : CSHA512) :
  AddFile_loop [] total hasher = hasher.
Proof. reflexivity. Qed.

Lemma AddFile_loop_error (rest : list read_result) (total : Z)
    (hasher : CSHA512) :
  AddFile_loop (ReadError :: rest) total hasher = hasher.
Proof. reflexivity. Qed.

Lemma AddFile_loop_data (d : list byte) (rest : list read_result) (total : Z)
    (hasher : CSHA512) :
  AddFile_loop (ReadData d :: rest) total hasher
  = let chunk := firstn sizeof_fbuf d in
    let n := Z.of_nat (length chunk) in
    let hasher' := if n >? 0 then Write hasher chunk else hasher in
    let total' := (total + n) mod SIZE_MOD in
    if AddFile_again n total' then AddFile_loop rest total' hasher'
    else hasher'.
Proof. reflexivity. Qed.

Lemma flat_map_step {A B : Type} (f : A -> list B) (x : A) (l : list A) :
  flat_map f (x :: l) = f x ++ flat_map f l.
Proof. reflexivity. Qed.

Lemma chunk_reads_S (m : nat) (content : list byte) :
  chunk_reads (S m) content
  = ReadData (firstn sizeof_fbuf content)
    :: chunk_reads m (skipn sizeof_fbuf content).
Proof. reflexivity. Qed.

Lemma reads_done_cons (b : nat) (r : read_result) (rest : list read_result) :
  reads_done (S b) (r :: rest)
  = r :: (if full_read r then reads_done b rest else []).
Proof. reflexivity. Qed.

Lemma AddFile_loop_reads (pending : list read_result) :
  forall (b : nat) (hasher : CSHA512),
    (1 <= b <= 256)%nat ->
    AddFile_loop pending (4096 * (256 - Z.of_nat b)) hasher
    = hasher ++ flat_map chunk_of (reads_done b pending).
Proof.
  induction pending as [|r rest IH]; intros b hasher Hb.
  - rewrite AddFile_loop_nil. destruct b; [lia|]. simpl. now rewrite app_nil_r.
  - destruct b as [|b]; [lia|]. rewrite reads_done_cons.
    destruct r as [|d].
    + rewrite AddFile_loop_error. simpl. now rewrite app_nil_r.
    + rewrite AddFile_loop_data. cbv zeta.
      unfold AddFile_again, AddFile_cap.
      rewrite sizeof_fbuf_value, SIZE_MOD_value.
      rewrite flat_map_step.
      change (chunk_of (ReadData d))
        with (match firstn sizeof_fbuf d with [] => [] | c => [c] end).
      unfold full_read.
      pose proof (length_firstn sizeof_fbuf d) as Hlen.
      pose proof sizeof_fbuf_value as Hbuf.
      set (chunk := firstn sizeof_fbuf d) in *.
      rewrite (Z.mod_small (Z.of_nat (length chunk))) by lia.
      rewrite (Z.mod_small (_ + _)) by lia.
      destruct (Nat.leb_spec sizeof_fbuf (length d)) as [Hfull|Hshort].
      * assert (Hchunk : Z.of_nat (length chunk) = 4096) by lia.
        rewrite Hchunk. change (4096 >? 0) with true.
        change (4096 =? 4096) with true. rewrite andb_true_l.
        destruct chunk as [|x chunk']; [simpl in Hchunk; lia|].
        destruct b as [|b].
        -- replace (_ <? 1048576) with false
             by (symmetry; apply Z.ltb_ge; lia).
           reflexivity.
        -- replace (_ <? 1048576) with true
             by (symmetry; apply Z.ltb_lt; lia).
           replace (4096 * (256 - Z.of_nat (S (S b))) + 4096)
             with (4096 * (256 - Z.of_nat (S b))) by lia.
           rewrite IH by lia. unfold Write. now rewrite <- app_assoc.
      * replace (Z.of_nat (length chunk) =? 4096) with false
          by (symmetry; apply Z.eqb_neq; lia).
        rewrite andb_false_l.
        destruct chunk as [|x chunk'].
        -- simpl. now rewrite app_nil_r.
        -- replace (Z.of_nat (length (x :: chunk')) >? 0) with true
             by (symmetry; apply Z.gtb_lt; simpl length; lia).
           reflexivity.
Qed.

(** The loop absorbs at most [budget] chunks of at most [sizeof_fbuf]
    bytes. *)
Lemma reads_done_payload_bound (b : nat) (pending : list read_result) :
  (length (concat (flat_map chunk_of (reads_done b pending)))
   <= sizeof_fbuf * b)%nat.
Proof.
  revert pending. induction b as [|b IH]; intros pending.
  - apply Nat.le_0_l.
  - destruct pending as [|r rest]; [apply Nat.le_0_l|].
    rewrite reads_done_cons, flat_map_step, concat_app, length_app.
    assert (Hr : (length (concat (chunk_of r)) <= sizeof_fbuf)%nat).
    { destruct r as [|d]; [apply Nat.le_0_l|].
      unfold chunk_of. pose proof (firstn_le_length sizeof_fbuf d) as Hle.
      destruct (firstn sizeof_fbuf d) as [|x c]; [apply Nat.le_0_l|].
      cbn [concat]. now rewrite app_nil_r. }
    specialize (IH rest). rewrite Nat.mul_succ_r.
    destruct (full_read r); [lia|].
    cbn [flat_map concat length]. lia.
Qed.

(** On a file that always delivers full chunks the first [b] reads absorb
    the first [b] chunks of the content. *)
Lemma reads_done_chunk_reads (b : nat) :
  forall (m : nat) (content : list byte),
    (b <= m)%nat -> (sizeof_fbuf * b <= length content)%nat ->
    concat (flat_map chunk_of (reads_done b (chunk_reads m content)))
    = firstn (sizeof_fbuf * b) content.
Proof.
  induction b as [|b IH]; intros m content Hm Hlen.
  - now rewrite Nat.mul_0_r.
  - destruct m as [|m]; [lia|].
    rewrite chunk_reads_S, reads_done_cons, flat_map_step.
    assert (Hbuf : (0 < sizeof_fbuf)%nat) by (unfold sizeof_fbuf; lia).
    assert (Hfirst : length (firstn sizeof_fbuf content) = sizeof_fbuf).
    { rewrite length_firstn. lia. }
    unfold full_read. rewrite Hfirst, Nat.leb_refl.
    unfold chunk_of at 1. rewrite firstn_firstn, Nat.min_id.
    destruct (firstn sizeof_fbuf content) as [|x c] eqn:Hc;
      [simpl in Hfirst; lia|].
    rewrite concat_app. cbn [concat]. rewrite app_nil_r.
    rewrite IH; [|lia|rewrite length_skipn; lia].
    rewrite <- Hc, Nat.mul_succ_r, Nat.add_comm. symmetry. apply firstn_plus.
Qed.

(** The loop stops with the first read that does not fill the buffer, be
    it short, empty or failed, and does not read again. *)
Lemma reads_done_stops (pre : list read_result) :
  forall (b : nat) (r : read_result) (rest : list read_result),
    forallb full_read pre = true -> full_read r = false ->
    (length pre < b)%nat ->
    reads_done b (pre ++ r :: rest) = pre ++ [r].
Proof.
  induction pre as [|p pre IH]; intros b r rest Hpre Hr Hb;
    (destruct b as [|b]; [simpl in Hb; lia|]).
  - simpl app. now rewrite reads_done_cons, Hr.
  - simpl in Hpre. apply andb_true_iff in Hpre. destruct Hpre as [Hp Hpre].
    simpl app. rewrite reads_done_cons, Hp.
    rewrite IH; [reflexivity|assumption|assumption|simpl in Hb; lia].
Qed.

(** C5.  Once the file is open, [AddFile] writes the descriptor and the
    [fstat] result and then the chunks of the reads it performs: at most
    256 reads of at most 4096 bytes, ending with the first read that does
    not fill the buffer (end of stream, short read or error; no read is
    repeated).  So the content absorbed never exceeds 1048576 bytes, and
    for a file of at least five mebibytes whose reads are always full it
    is exactly the first 1048576 bytes of the file. *)
Theorem AddFile_bounded_read (fs : filesystem) (hasher : CSHA512)
    (path : cstring) :
  fs_open fs path <> -1 ->
  let file := fs_file fs (fs_open fs path) in
  let payload := flat_map chunk_of (reads_done 256 (pending_reads file)) in
  AddFile fs hasher path = hasher ++ AddFile_header fs path ++ payload
  /\ Z.of_nat (length (concat payload)) <= AddFile_cap
  /\ (forall pre r rest,
        pending_reads file = pre ++ r :: rest ->
        forallb full_read pre = true -> full_read r = false ->
        (length pre < 256)%nat ->
        payload = flat_map chunk_of (pre ++ [r]))
  /\ (forall sb content,
        file = stub_file sb content ->
        5 * 1048576 <= Z.of_nat (length content) ->
        concat payload = firstn (Z.to_nat AddFile_cap) content
        /\ Z.of_nat (length (concat payload)) = 1048576).
Proof.
  intros Hopen file payload.
  assert (Hcap : Z.to_nat AddFile_cap = (sizeof_fbuf * 256)%nat)
    by (unfold AddFile_cap, sizeof_fbuf; lia).
  repeat split.
  - unfold AddFile.
    replace (fs_open fs path =? -1) with false
      by (symmetry; now apply Z.eqb_neq).
    cbn [negb].
    change 0 with (4096 * (256 - Z.of_nat 256)).
    rewrite AddFile_loop_reads by lia.
    unfold AddFile_header, Write. fold file. fold payload.
    destruct (fstat_result file); now rewrite <- !app_assoc.
  - pose proof (reads_done_payload_bound 256 (pending_reads file)) as Hle.
    fold payload in Hle. unfold sizeof_fbuf in Hle. unfold AddFile_cap. lia.
  - intros pre r rest Hpending Hpre Hr Hlen. subst payload.
    now rewrite Hpending, reads_done_stops.
  - subst payload. rewrite H. unfold stub_file. cbn [pending_reads].
    rewrite reads_done_chunk_reads.
    + now rewrite Hcap.
    + assert (256 <= length content / sizeof_fbuf)%nat; [|lia].
      apply Nat.div_le_lower_bound; unfold sizeof_fbuf; lia.
    + unfold sizeof_fbuf. lia.
  - subst payload. rewrite H. unfold stub_file. cbn [pending_reads].
    rewrite reads_done_chunk_reads.
    + rewrite length_firstn. unfold sizeof_fbuf. lia.
    + assert (256 <= length content / sizeof_fbuf)%nat; [|lia].
      apply Nat.div_le_lower_bound; unfold sizeof_fbuf; lia.
    + unfold sizeof_fbuf. lia.
Qed.

Lemma AddFile_bounded_read_witness :
  Z.of_nat
    (length
       (concat
          (flat_map chunk_of
             (reads_done 256
                (pending_reads
                   (fs_file fs_big_file (fs_open fs_big_file [x2f])))))))
  = 1048576.
Proof.
  destruct (AddFile_bounded_read fs_big_file [] [x2f]) as (_ & _ & _ & Hbig).
  - discriminate.
  - destruct (Hbig None five_MiB eq_refl) as [_ Hlen]; [|exact Hlen].
    unfold five_MiB. rewrite repeat_length. lia.
Defined.

Lemma str_bytes_terminated (s : cstring) :
  str_bytes s (strlen s + 1) = c_str s ++ [x00].
Proof.
  unfold str_bytes, c_str.
  induction s as [|b s IH].
  - reflexivity.
  - cbn [strlen]. destruct (Byte.eqb b x00) eqn:Hb.
    + apply Byte.byte_dec_bl in Hb. subst b. reflexivity.
    + cbn [Nat.add app firstn repeat]. f_equal.
      rewrite <- IH. clear IH.
      replace (x00 :: repeat x00 (strlen s + 1))
        with (repeat x00 (strlen s + 1) ++ [x00])
        by (symmetry; apply (repeat_cons (strlen s + 1) x00)).
      rewrite app_assoc, firstn_app.
      replace (strlen s + 1 - length (s ++ repeat x00 (strlen s + 1)))%nat
        with O by (rewrite length_app, repeat_length; lia).
      now rewrite firstn_0, app_nil_r.
Qed.

(** C6.  When [stat] fails for the path, [AddPath] returns the hasher as
    it was: nothing is written.  When it succeeds, [AddPath] writes the
    path string with its terminating NUL and then the [struct stat].  The
    function is total: no failure is reported to the caller. *)
Theorem AddPath_absent_is_noop (fs : filesystem) (hasher : CSHA512)
    (path : cstring) :
  (fs_stat fs path = None -> AddPath fs hasher path = hasher)
  /\ (forall sb, fs_stat fs path = Some sb ->
        AddPath fs hasher path = hasher ++ [c_str path ++ [x00]; sb]).
Proof.
  unfold AddPath. split.
  - intros ->. reflexivity.
  - intros sb ->. unfold Write.
    now rewrite str_bytes_terminated, <- app_assoc.
Qed.

Lemma AddPath_absent_is_noop_witness :
  AddPath fs_root_only [[x07]] [x2f; x74; x6d; x70] = [[x07]]
  /\ AddPath fs_root_only [[x07]] [x2f]
     = [[x07]] ++ [c_str [x2f] ++ [x00]; [x01; x02]].
Proof.
  split.
  - apply (proj1 (AddPath_absent_is_noop fs_root_only [[x07]]
                    [x2f; x74; x6d; x70])).
    reflexivity.
  - apply (proj2 (AddPath_absent_is_noop fs_root_only [[x07]] [x2f])).
    reflexivity.
Defined.

(** ** The static assertions of [operator<<] *)

Lemma is_same_true_iff (a b : ctype) : is_same a b = true <-> a = b.
Proof.
  unfold is_same. destruct (ctype_eq_dec a b); split; congruence.
Qed.

Lemma static_asserts_fail_iff (T : cxx_type) :
  static_asserts_hold T = false
  <-> decay T = char_ptr \/ decay T = uint8_ptr
      \/ decay T = const_char_ptr \/ decay T = const_uint8_ptr.
Proof.
  unfold static_asserts_hold.
  rewrite !andb_false_iff, !negb_false_iff, !is_same_true_iff. tauto.
Qed.

(** C7 (amended).  [operator<<] does not compile exactly for the
    arguments whose decayed type is [char *], [uint8_t *], [const char *]
    or [const uint8_t *] (so also for arrays of such characters and for
    references to or qualified copies of such pointers).  Every other
    type, other pointer types included, is accepted, and the bytes of the
    object itself are written. *)
Theorem operator_shl_rejects_string_pointers (T : cxx_type)
    (hasher : CSHA512) (data : list byte) :
  (operator_shl T hasher data = None
   <-> decay T = char_ptr \/ decay T = uint8_ptr
       \/ decay T = const_char_ptr \/ decay T = const_uint8_ptr)
  /\ (operator_shl T hasher data = Some (hasher ++ [data])
      <-> ~ (decay T = char_ptr \/ decay T = uint8_ptr
             \/ decay T = const_char_ptr \/ decay T = const_uint8_ptr)).
Proof.
  unfold operator_shl. rewrite <- static_asserts_fail_iff.
  destruct (static_asserts_hold T); repeat split; congruence.
Qed.

Lemma operator_shl_rejects_string_pointers_witness :
  operator_shl (plain (Tarray cv_const Tchar 6)) [] (le_bytes 6 0) = None
  /\ operator_shl (mk_cxx_type true cv_const uint8_ptr) [] (le_bytes 8 0)
     = None.
Proof.
  split.
  - apply (proj1 (operator_shl_rejects_string_pointers
                    (plain (Tarray cv_const Tchar 6)) [] (le_bytes 6 0))).
    right. right. left. reflexivity.
  - apply (proj1 (operator_shl_rejects_string_pointers
                    (mk_cxx_type true cv_const uint8_ptr) []
                    (le_bytes 8 0))).
    right. left. reflexivity.
Defined.

(** A [void *], as in [hasher << &addr << addr]: a pointer whose value is
    written, not what it points to, and the operator accepts it. *)
Lemma operator_shl_void_pointer_counterexample :
  is_pointer (decay (plain void_ptr)) = true
  /\ operator_shl (plain void_ptr) [] (le_bytes 8 140737488355328)
     = Some [le_bytes 8 140737488355328]
  /\ operator_shl (plain void_ptr) [] (le_bytes 8 140737488355328) <> None.
Proof. repeat split. discriminate. Qed.

(** The instantiations the collectors use compile. *)
Lemma operator_shl_uint32_t (hasher : CSHA512) (v : Z) :
  operator_shl (plain Tuint32_t) hasher (le_bytes sizeof_uint32_t v)
  = Some (shl_uint32_t hasher v).
Proof. reflexivity. Qed.

Lemma operator_shl_size_t (hasher : CSHA512) (v : Z) :
  operator_shl (plain Tsize_t) hasher (le_bytes sizeof_size_t v)
  = Some (shl_size_t hasher v).
Proof. reflexivity. Qed.

Lemma operator_shl_class (tag : nat) (hasher : CSHA512) (sb : list byte) :
  operator_shl (plain (Tclass tag)) hasher sb = Some (Write hasher sb).
Proof. reflexivity. Qed.

(** ** AddSockaddr *)

Lemma absorbed_Write (hasher : CSHA512) (data : list byte) :
  absorbed (Write hasher data) = absorbed hasher ++ data.
Proof.
  unfold absorbed, Write. rewrite concat_app. cbn [concat].
  now rewrite app_nil_r.
Qed.

Section SockaddrFacts.

Variables AF_INET AF_INET6 : Z.
Variables sizeof_sockaddr_in sizeof_sockaddr_in6 : nat.
Variables offsetof_sa_family sizeof_sa_family : nat.

Local Abbreviation add_sockaddr :=
  (AddSockaddr AF_INET AF_INET6 sizeof_sockaddr_in sizeof_sockaddr_in6
               offsetof_sa_family sizeof_sa_family).

(** C8.  For a non-null address exactly one [Write] is made: of the first
    [sizeof(sockaddr_in)] bytes of the address when the family is
    [AF_INET], of the first [sizeof(sockaddr_in6)] bytes when it is
    [AF_INET6], and of the [sa_family] field alone otherwise; the number
    of bytes depends on the family only.  (The two family constants are
    distinct case labels.) *)
Theorem AddSockaddr_width (hasher : CSHA512) (addr : mem_view) :
  AF_INET <> AF_INET6 ->
  let family := sa_family offsetof_sa_family sizeof_sa_family addr in
  let result := add_sockaddr hasher (Some addr) in
  (family = AF_INET ->
     result = hasher ++ [load addr 0 sizeof_sockaddr_in]
     /\ length (absorbed result)
        = (length (absorbed hasher) + sizeof_sockaddr_in)%nat)
  /\ (family = AF_INET6 ->
        result = hasher ++ [load addr 0 sizeof_sockaddr_in6]
        /\ length (absorbed result)
           = (length (absorbed hasher) + sizeof_sockaddr_in6)%nat)
  /\ (family <> AF_INET -> family <> AF_INET6 ->
        result = hasher ++ [load addr offsetof_sa_family sizeof_sa_family]
        /\ length (absorbed result)
           = (length (absorbed hasher) + sizeof_sa_family)%nat).
Proof.
  intros Hdistinct family result. subst result. unfold AddSockaddr.
  fold family.
  destruct (Z.eqb_spec family AF_INET) as [H4|H4];
    [|destruct (Z.eqb_spec family AF_INET6) as [H6|H6]];
    repeat split; intros; try congruence;
    rewrite absorbed_Write, length_app, load_length; reflexivity.
Qed.

End SockaddrFacts.

Lemma AddSockaddr_width_witness :
  linux_AddSockaddr [] (Some sockaddr_v6) = [] ++ [load sockaddr_v6 0 28]
  /\ length (absorbed (linux_AddSockaddr [] (Some sockaddr_v6)))
     = (length (absorbed []) + 28)%nat.
Proof.
  apply (AddSockaddr_width LINUX_AF_INET LINUX_AF_INET6 16 28 0 2
                           [] sockaddr_v6).
  - discriminate.
  - reflexivity.
Defined.

(** ** The environment-variable loop *)

Lemma strlen_le_length (s : cstring) : (strlen s <= length s)%nat.
Proof.
  induction s as [|b s IH]; simpl; [lia|].
  destruct (Byte.eqb b x00); lia.
Qed.

Lemma str_bytes_strlen (s : cstring) : str_bytes s (strlen s) = c_str s.
Proof.
  unfold str_bytes, c_str. rewrite firstn_app.
  replace (strlen s - length s)%nat with O
    by (pose proof (strlen_le_length s); lia).
  now rewrite firstn_0, app_nil_r.
Qed.

(** What is written for an entry holds no NUL byte. *)
Lemma c_str_no_nul (s : cstring) : ~ In x00 (c_str s).
Proof.
  unfold c_str. induction s as [|b s IH]; simpl; [tauto|].
  destruct (Byte.eqb b x00) eqn:Hb; simpl; [tauto|].
  intros [Heq|Hin]; [|now apply IH].
  subst b. discriminate.
Qed.

Lemma c_str_nul_free (s : cstring) : ~ In x00 s -> c_str s = s.
Proof.
  unfold c_str. induction s as [|b s IH]; intros Hfree; [reflexivity|].
  simpl. destruct (Byte.eqb b x00) eqn:Hb.
  - apply Byte.byte_dec_bl in Hb. subst b. exfalso. apply Hfree. now left.
  - simpl. f_equal. apply IH. intros Hin. apply Hfree. now right.
Qed.

Lemma environ_loop_writes (entries : list (option cstring)) :
  forall hasher : CSHA512,
    environ_loop entries hasher
    = hasher ++ map c_str (entries_before_null entries).
Proof.
  induction entries as [|[s|] rest IH]; intros hasher; simpl;
    try (now rewrite app_nil_r).
  rewrite IH, str_bytes_strlen. unfold Write. now rewrite <- app_assoc.
Qed.

Lemma entries_before_null_all (vars : list cstring) :
  entries_before_null (map Some vars) = vars.
Proof. induction vars as [|s vars IH]; simpl; [|rewrite IH]; reflexivity. Qed.

Lemma absorbed_app (a b : CSHA512) : absorbed (a ++ b) = absorbed a ++ concat b.
Proof. apply concat_app. Qed.

(** C9.  For a non-null [environ] the loop makes one [Write] per entry,
    in array order up to the terminating null, of the bytes of the entry
    up to but not including its NUL; nothing is written between or after
    the entries.  So for entries ["NAME=value"] the bytes absorbed are the
    entries themselves, concatenated in the order of the array. *)
Theorem RandAddStaticEnv_environ_raw (entries : list (option cstring))
    (hasher : CSHA512) :
  RandAddStaticEnv_environ (Some entries) hasher
  = hasher ++ map c_str (entries_before_null entries)
  /\ Forall (fun written => ~ In x00 written)
            (map c_str (entries_before_null entries))
  /\ (forall vars : list cstring,
        entries = map Some vars ->
        Forall (fun s => ~ In x00 s) vars ->
        RandAddStaticEnv_environ (Some entries) hasher = hasher ++ vars
        /\ absorbed (RandAddStaticEnv_environ (Some entries) hasher)
           = absorbed hasher ++ concat vars).
Proof.
  cbn [RandAddStaticEnv_environ]. rewrite environ_loop_writes.
  split; [reflexivity|]. split.
  - apply Forall_forall. intros w Hin. apply in_map_iff in Hin.
    destruct Hin as (s & <- & _). apply c_str_no_nul.
  - intros vars -> Hfree. rewrite entries_before_null_all.
    assert (Hsame : map c_str vars = vars).
    { induction Hfree as [|s vars Hs _ IH]; [reflexivity|].
      simpl. now rewrite IH, c_str_nul_free. }
    rewrite Hsame. split; [reflexivity|apply absorbed_app].
Qed.

Lemma RandAddStaticEnv_environ_raw_witness :
  RandAddStaticEnv_environ (Some env_two) [[x07]]
  = [[x07]] ++ [[x41; x3d; x31]; [x42; x3d; x32]]
  /\ absorbed (RandAddStaticEnv_environ (Some env_two) [[x07]])
     = absorbed [[x07]] ++ concat [[x41; x3d; x31]; [x42; x3d; x32]].
Proof.
  apply (proj2 (proj2 (RandAddStaticEnv_environ_raw env_two [[x07]]))).
  - reflexivity.
  - repeat constructor; simpl; intros H;
      repeat (destruct H as [H|H]; [discriminate H|]); exact H.
Defined.

(** ** AddSysctl *)

Section SysctlFacts.

Variable ENOMEM : Z.
Variable sysctl : list Z -> Z -> sysctl_result.

(** C10.  At most 65536 bytes of the result are written: the size the
    kernel reports is clamped to the size of the buffer.  When the query
    returns 0, or returns -1 with [errno == ENOMEM], four writes are made:
    [sizeof(CTL)], the name [CTL], the clamped size and that many bytes of
    the buffer.  In every other case nothing is written. *)
Theorem AddSysctl_clamped (CTL : list Z) (hasher : CSHA512) :
  let r := sysctl CTL 65536 in
  let siz := Z.min (sysctl_siz r) sizeof_buffer in
  let data := load (sysctl_buffer r) 0 (Z.to_nat siz) in
  let accepted :=
    sysctl_ret r = 0 \/ (sysctl_ret r = -1 /\ sysctl_errno r = ENOMEM) in
  Z.of_nat (length data) <= 65536
  /\ (accepted ->
      AddSysctl ENOMEM sysctl CTL hasher
      = hasher ++ [le_bytes sizeof_size_t (Z.of_nat (sizeof_int * length CTL));
                   flat_map (le_bytes sizeof_int) CTL;
                   le_bytes sizeof_size_t siz;
                   data])
  /\ (~ accepted -> AddSysctl ENOMEM sysctl CTL hasher = hasher).
Proof.
  intros r siz data accepted. subst data accepted.
  split; [rewrite load_length; unfold siz, sizeof_buffer; lia|].
  unfold AddSysctl. fold r.
  replace (if sysctl_siz r >? sizeof_buffer then sizeof_buffer
           else sysctl_siz r) with siz
    by (unfold siz; destruct (Z.gtb_spec (sysctl_siz r) sizeof_buffer); lia).
  destruct (Z.eqb_spec (sysctl_ret r) 0) as [H0|H0];
    destruct (Z.eqb_spec (sysctl_ret r) (-1)) as [H1|H1];
    destruct (Z.eqb_spec (sysctl_errno r) ENOMEM) as [He|He];
    cbn [orb andb]; split; intros Hacc;
    try reflexivity; try tauto; try lia;
    unfold shl_size_t, Write; rewrite <- !app_assoc; reflexivity.
Qed.

End SysctlFacts.

Lemma AddSysctl_clamped_witness :
  length (AddSysctl LINUX_ENOMEM sysctl_too_big [1; 14] [[x07]]) = 5%nat.
Proof.
  rewrite (proj1 (proj2 (AddSysctl_clamped LINUX_ENOMEM sysctl_too_big
                           [1; 14] [[x07]]))).
  - reflexivity.
  - right. split; reflexivity.
Defined.

(* ===================================================================== *)
(** * Part III: further properties of the collectors                      *)
(* ===================================================================== *)

(** ** RandAddSeedPerfmon over many calls *)

Section PerfmonSequences.

Variables ERROR_SUCCESS ERROR_MORE_DATA : Z.
Variable RegQueryValueExA : list win_call -> Z -> reg_result.

Local Abbreviation run :=
  (RandAddSeedPerfmon ERROR_SUCCESS ERROR_MORE_DATA RegQueryValueExA).
Local Abbreviation run_all :=
  (perfmon_calls ERROR_SUCCESS ERROR_MORE_DATA RegQueryValueExA).

Lemma perfmon_resize_initial : perfmon_resize 250000 = nMaxSize.
Proof. reflexivity. Qed.

(** X1.  Whatever the clock reads and whatever the registry answers, one
    call keeps the writes and registry calls made before it and adds to
    them at most one write, at most two registry queries (with buffers of
    250000 bytes and then of 10000000 bytes) and at most one
    [RegCloseKey]; [last_perfmon] does not go back. *)
Theorem RandAddSeedPerfmon_bounded_effects (t : Z) (st : perfmon_state) :
  exists writes calls,
    hasher (run t st) = hasher st ++ writes
    /\ (length writes <= 1)%nat
    /\ os_calls (run t st) = os_calls st ++ calls
    /\ (count_queries calls <= 2)%nat
    /\ (count_collections calls <= 1)%nat
    /\ incl (query_sizes calls) [250000; nMaxSize]
    /\ last_perfmon st <= last_perfmon (run t st).
Proof.
  destruct (Z.ltb_spec t (last_perfmon st + perfmon_cooldown)) as [Hlt|Hge].
  - rewrite (perfmon_skip _ _ _ t st Hlt). exists [], [].
    rewrite !app_nil_r. repeat split; try (cbn; lia).
    intros x [].
  - rewrite (perfmon_due _ _ _ t st Hge). cbn [hasher os_calls last_perfmon].
    set (r := fst (perfmon_loop ERROR_MORE_DATA RegQueryValueExA 250000
                     (os_calls st))).
    exists (if reg_ret r =? ERROR_SUCCESS
            then [firstn (Z.to_nat (reg_nSize r)) (reg_vData r)] else []).
    destruct (perfmon_loop_shape ERROR_MORE_DATA RegQueryValueExA 250000
                (os_calls st)) as [[_ Hrun]|[_ Hrun]];
      rewrite Hrun; cbn [snd]; rewrite ?perfmon_resize_initial.
    + exists [CallRegQueryValueExA 250000; CallRegCloseKey].
      repeat split.
      * destruct (reg_ret r =? ERROR_SUCCESS);
          [reflexivity|now rewrite app_nil_r].
      * destruct (reg_ret r =? ERROR_SUCCESS); cbn; lia.
      * now rewrite <- app_assoc.
      * cbn. lia.
      * cbn. lia.
      * intros x [<-|[]]. now left.
      * unfold perfmon_cooldown in Hge. lia.
    + exists [CallRegQueryValueExA 250000; CallRegQueryValueExA nMaxSize;
              CallRegCloseKey].
      repeat split.
      * destruct (reg_ret r =? ERROR_SUCCESS);
          [reflexivity|now rewrite app_nil_r].
      * destruct (reg_ret r =? ERROR_SUCCESS); cbn; lia.
      * now rewrite <- !app_assoc.
      * cbn. lia.
      * cbn. lia.
      * intros x [<-|[<-|[]]]; [now left|right; now left].
      * unfold perfmon_cooldown in Hge. lia.
Qed.

Lemma perfmon_calls_cons (t : Z) (times : list Z) (st : perfmon_state) :
  run_all (t :: times) st = run_all times (run t st).
Proof. reflexivity. Qed.

(** X2.  Over any sequence of calls whose clock readings do not exceed
    [T], in any order, [last_perfmon] never goes back and never exceeds
    [T], and every collection moves it on by at least ten minutes: the
    number of collections is at most the time elapsed since the starting
    [last_perfmon] divided by 600. *)
Theorem perfmon_calls_rate (times : list Z) (T : Z) (st : perfmon_state) :
  Forall (fun t => t <= T) times ->
  last_perfmon st <= T ->
  let st' := run_all times st in
  last_perfmon st <= last_perfmon st' <= T
  /\ (count_collections (os_calls st)
      <= count_collections (os_calls st'))%nat
  /\ perfmon_cooldown
     * (Z.of_nat (count_collections (os_calls st'))
        - Z.of_nat (count_collections (os_calls st)))
     <= last_perfmon st' - last_perfmon st.
Proof.
  intros Htimes. revert st.
  induction Htimes as [|t times Ht _ IH]; intros st HT; cbv zeta.
  - unfold perfmon_calls. cbn [fold_left]. unfold perfmon_cooldown. lia.
  - rewrite perfmon_calls_cons.
    destruct (Z.ltb_spec t (last_perfmon st + perfmon_cooldown)) as [Hlt|Hge].
    + rewrite (perfmon_skip _ _ _ t st Hlt). now apply IH.
    + destruct (perfmon_due_counts ERROR_SUCCESS ERROR_MORE_DATA
                  RegQueryValueExA t st Hge) as (Hlast & Hcol & _).
      specialize (IH (run t st)). cbv zeta in IH.
      rewrite Hlast, Hcol in IH. specialize (IH Ht).
      unfold perfmon_cooldown in *. lia.
Qed.

End PerfmonSequences.

Lemma perfmon_calls_rate_witness :
  let st' :=
    perfmon_calls WIN_ERROR_SUCCESS WIN_ERROR_MORE_DATA registry_ok
                  [1000; 1300; 900; 1660] process_start in
  last_perfmon st' <= 2000
  /\ Z.of_nat (count_collections (os_calls st')) <= 3.
Proof.
  destruct (perfmon_calls_rate WIN_ERROR_SUCCESS WIN_ERROR_MORE_DATA
              registry_ok [1000; 1300; 900; 1660] 2000 process_start)
    as ([_ Hle] & _ & Hrate).
  - repeat constructor; lia.
  - cbn. lia.
  - cbv zeta in *. unfold perfmon_cooldown in Hrate.
    change (last_perfmon process_start) with 0 in Hrate.
    change (count_collections (os_calls process_start)) with 0%nat in Hrate.
    split; [exact Hle|lia].
Defined.

(** ** The queries of AddAllCPUID *)

Lemma Z_range_S (start : Z) (n : nat) :
  Z_range start (S n) = start :: Z_range (start + 1) n.
Proof.
  unfold Z_range. cbn [seq map]. f_equal; [lia|].
  rewrite <- seq_shift, map_map. apply map_ext. intros i. lia.
Qed.

Section CpuidQueries.

Variable GetCPUID : Z -> Z -> cpuid_regs.

Lemma AddCPUID_writes (hasher : CSHA512) (leaf subleaf : Z) :
  fst (AddCPUID GetCPUID hasher leaf subleaf)
  = hasher ++ cpuid_writes GetCPUID leaf subleaf.
Proof.
  unfold AddCPUID, cpuid_writes, shl_uint32_t, Write. cbn [fst fold_left map].
  now rewrite <- !app_assoc.
Qed.

Lemma query_writes_of_leaf (leaf : Z) (subleaves : list Z) :
  flat_map (query_writes GetCPUID) (map (fun s => (leaf, s)) subleaves)
  = flat_map (cpuid_writes GetCPUID leaf) subleaves.
Proof.
  induction subleaves as [|s l IH]; [reflexivity|].
  cbn [map flat_map]. now rewrite IH.
Qed.

Lemma leaf_queries_writes (last : Z -> Z) (leaf : Z) :
  flat_map (query_writes GetCPUID) (leaf_queries last leaf)
  = flat_map (cpuid_writes GetCPUID leaf)
             (Z_range 0 (S (Z.to_nat (last leaf)))).
Proof. apply query_writes_of_leaf. Qed.

Lemma subleaf_loop_from (n : nat) :
  forall (leaf subleaf : Z) (hasher : CSHA512) (fuel : nat),
    0 <= subleaf -> subleaf + Z.of_nat n < UINT32_MOD ->
    subleaf_break leaf (GetCPUID leaf (subleaf + Z.of_nat n)) = true ->
    (forall s, subleaf <= s < subleaf + Z.of_nat n ->
       subleaf_break leaf (GetCPUID leaf s) = false) ->
    subleaf_loop GetCPUID fuel leaf subleaf hasher
    = if (n <? fuel)%nat
      then Some (hasher
                 ++ flat_map (cpuid_writes GetCPUID leaf)
                             (Z_range subleaf (S n)))
      else None.
Proof.
  induction n as [|n IH]; intros leaf subleaf hasher fuel Hpos Hlt Hlast Hgo.
  - replace (subleaf + Z.of_nat 0) with subleaf in Hlast by lia.
    destruct fuel as [|fuel]; [reflexivity|].
    rewrite subleaf_loop_S, Hlast, AddCPUID_writes.
    cbn [Nat.ltb Nat.leb]. rewrite Z_range_S. cbn [Z_range seq map flat_map].
    now rewrite app_nil_r.
  - destruct fuel as [|fuel]; [reflexivity|].
    rewrite subleaf_loop_S, (Hgo subleaf) by lia.
    rewrite uint32_succ by lia. rewrite AddCPUID_writes.
    rewrite (IH leaf (subleaf + 1)); try lia.
    + change (S n <? S fuel)%nat with (n <? fuel)%nat.
      destruct (n <? fuel)%nat; [|reflexivity].
      rewrite (Z_range_S subleaf (S n)). cbn [flat_map].
      now rewrite <- app_assoc.
    + now replace (subleaf + 1 + Z.of_nat n)
        with (subleaf + Z.of_nat (S n)) by lia.
    + intros s Hs. apply Hgo. lia.
Qed.

(** X3.  For a leaf whose first sub-leaf with a breaking answer is
    [last leaf], the sub-leaf loop queries the sub-leaves 0, 1, ...,
    [last leaf] in this order and no other: it returns after exactly
    [last leaf + 1] queries, each contributing its six writes, and not
    before. *)
Theorem subleaf_loop_queries (last : Z -> Z) (leaf : Z) (hasher : CSHA512)
    (fuel : nat) :
  first_break GetCPUID last leaf ->
  ((Z.to_nat (last leaf) < fuel)%nat ->
   subleaf_loop GetCPUID fuel leaf 0 hasher
   = Some (hasher
           ++ flat_map (query_writes GetCPUID) (leaf_queries last leaf)))
  /\ ((fuel <= Z.to_nat (last leaf))%nat ->
      subleaf_loop GetCPUID fuel leaf 0 hasher = None).
Proof.
  intros (Hrange & Hbreak & Hgo).
  rewrite (subleaf_loop_from (Z.to_nat (last leaf)) leaf 0 hasher fuel);
    try lia.
  - rewrite leaf_queries_writes.
    split; intros Hfuel.
    + now replace (Z.to_nat (last leaf) <? fuel)%nat with true
        by (symmetry; apply Nat.ltb_lt; lia).
    + now replace (Z.to_nat (last leaf) <? fuel)%nat with false
        by (symmetry; apply Nat.ltb_ge; lia).
  - now replace (0 + Z.of_nat (Z.to_nat (last leaf))) with (last leaf) by lia.
  - intros s Hs. apply Hgo. lia.
Qed.

Lemma leaf_loop_trace (last : Z -> Z) (max : Z) (n : nat) :
  forall (leaf : Z) (hasher : CSHA512),
    max < UINT32_MOD - 1 -> 0 <= leaf ->
    Z.of_nat n = Z.max 0 (max + 1 - leaf) ->
    (forall l, leaf <= l <= max -> first_break GetCPUID last l) ->
    exists fuel,
      leaf_loop GetCPUID fuel leaf max hasher
      = Some (hasher
              ++ flat_map (query_writes GetCPUID)
                          (flat_map (leaf_queries last) (Z_range leaf n))).
Proof.
  induction n as [|n IH]; intros leaf hasher Hmax Hpos Hn Hlast.
  - exists 1%nat. rewrite leaf_loop_S.
    replace (leaf <=? max) with false by (symmetry; apply Z.leb_gt; lia).
    cbn. now rewrite app_nil_r.
  - destruct (Hlast leaf ltac:(lia)) as (Hrange & Hbreak & Hgo).
    assert (Hsub :
              subleaf_loop GetCPUID (S (Z.to_nat (last leaf))) leaf 0 hasher
              = Some (hasher
                      ++ flat_map (cpuid_writes GetCPUID leaf)
                           (Z_range 0 (S (Z.to_nat (last leaf)))))).
    { rewrite (subleaf_loop_from (Z.to_nat (last leaf))); try lia.
      - now replace (Z.to_nat (last leaf) <? S (Z.to_nat (last leaf)))%nat
          with true by (symmetry; apply Nat.ltb_lt; lia).
      - now replace (0 + Z.of_nat (Z.to_nat (last leaf)))
          with (last leaf) by lia.
      - intros s Hs. apply Hgo. lia. }
    destruct (IH (leaf + 1)
                 (hasher ++ flat_map (cpuid_writes GetCPUID leaf)
                                     (Z_range 0 (S (Z.to_nat (last leaf)))))
                 Hmax ltac:(lia) ltac:(lia)
                 ltac:(intros l Hl; apply Hlast; lia)) as (f2 & Hrest).
    exists (S (Nat.max (S (Z.to_nat (last leaf))) f2)).
    rewrite leaf_loop_S.
    replace (leaf <=? max) with true by (symmetry; apply Z.leb_le; lia).
    rewrite (subleaf_loop_mono _ _ _ _ _ _ _ Hsub (Nat.le_max_l _ f2)).
    rewrite uint32_succ by lia.
    rewrite (leaf_loop_mono _ _ _ _ _ _ _ Hrest (Nat.le_max_r _ f2)).
    rewrite (Z_range_S leaf n). cbn [flat_map]. rewrite flat_map_app.
    rewrite leaf_queries_writes.
    now rewrite <- app_assoc.
Qed.

Lemma ext_leaf_loop_trace (ext_max : Z) (n : nat) :
  forall (leaf : Z) (hasher : CSHA512),
    ext_max < UINT32_MOD - 1 -> 0 <= leaf ->
    Z.of_nat n = Z.max 0 (ext_max + 1 - leaf) ->
    exists fuel,
      ext_leaf_loop GetCPUID fuel leaf ext_max hasher
      = Some (hasher
              ++ flat_map (query_writes GetCPUID)
                          (map (fun l => (l, 0)) (Z_range leaf n))).
Proof.
  induction n as [|n IH]; intros leaf hasher Hmax Hpos Hn.
  - exists 1%nat. rewrite ext_leaf_loop_S.
    replace (leaf <=? ext_max) with false
      by (symmetry; apply Z.leb_gt; lia).
    cbn. now rewrite app_nil_r.
  - destruct (IH (leaf + 1) (hasher ++ cpuid_writes GetCPUID leaf 0)
                 Hmax ltac:(lia) ltac:(lia)) as (fuel & Hrest).
    exists (S fuel). rewrite ext_leaf_loop_S.
    replace (leaf <=? ext_max) with true by (symmetry; apply Z.leb_le; lia).
    rewrite uint32_succ by lia. rewrite AddCPUID_writes, Hrest.
    rewrite (Z_range_S leaf n). cbn [map flat_map]. unfold query_writes at 2.
    cbn [fst snd]. now rewrite <- app_assoc.
Qed.

(** X4.  When the two maxima reported are below 0xFFFFFFFF and every
    standard leaf up to the maximum has a first breaking sub-leaf
    [last leaf], the enumeration returns, from some amount of fuel on,
    the hasher extended by the writes of exactly these queries in this
    order: leaf 0; each leaf from 1 to the maximum with its sub-leaves 0
    to [last leaf]; leaf 0x80000000; each extended leaf from 0x80000001 to
    the extended maximum at sub-leaf 0. *)
Theorem AddAllCPUID_queries (last : Z -> Z) (hasher : CSHA512) :
  let max := ax (GetCPUID 0 0) in
  let ext_max := ax (GetCPUID 2147483648 0) in
  max < UINT32_MOD - 1 ->
  ext_max < UINT32_MOD - 1 ->
  (forall leaf, 1 <= leaf <= max -> first_break GetCPUID last leaf) ->
  exists fuel,
    forall fuel', (fuel <= fuel')%nat ->
      AddAllCPUID GetCPUID fuel' hasher
      = Some (hasher
              ++ flat_map (query_writes GetCPUID)
                          (all_queries last max ext_max)).
Proof.
  intros max ext_max Hmax Hext Hlast.
  destruct (leaf_loop_trace last max (Z.to_nat max) 1
              (hasher ++ cpuid_writes GetCPUID 0 0) Hmax ltac:(lia)
              ltac:(lia) Hlast) as (f1 & Hstd).
  destruct (ext_leaf_loop_trace ext_max (Z.to_nat (ext_max - 2147483648))
              2147483649
              (((hasher ++ cpuid_writes GetCPUID 0 0)
                ++ flat_map (query_writes GetCPUID)
                     (flat_map (leaf_queries last)
                               (Z_range 1 (Z.to_nat max))))
               ++ cpuid_writes GetCPUID 2147483648 0)
              Hext ltac:(lia) ltac:(lia)) as (f2 & Hx).
  exists (Nat.max f1 f2). intros fuel' Hfuel.
  rewrite AddAllCPUID_unfold, AddCPUID_writes.
  fold max. rewrite (leaf_loop_mono _ _ _ _ _ _ _ Hstd) by lia.
  rewrite AddCPUID_writes. fold ext_max.
  rewrite (ext_leaf_loop_mono _ _ _ _ _ _ _ Hx) by lia.
  unfold all_queries. cbn [flat_map]. rewrite flat_map_app.
  cbn [flat_map]. unfold query_writes at 3 5. cbn [fst snd].
  now rewrite <- !app_assoc.
Qed.

End CpuidQueries.

Lemma cpu_small_first_break (leaf : Z) :
  1 <= leaf <= 4 -> first_break cpu_small cpu_small_last leaf.
Proof.
  intros Hleaf.
  assert (Hcases : leaf = 1 \/ leaf = 2 \/ leaf = 3 \/ leaf = 4) by lia.
  destruct Hcases as [-> | [-> | [-> | ->]]];
    (split; [rewrite UINT32_MOD_value; cbn; lia|]);
    (split; [reflexivity|]); intros s Hs; cbn in Hs; try lia.
  unfold subleaf_break, cpu_small. cbn.
  now replace (s <? 3) with true by (symmetry; apply Z.ltb_lt; lia).
Qed.

Lemma subleaf_loop_queries_witness :
  subleaf_loop cpu_small 4 4 0 []
  = Some ([] ++ flat_map (query_writes cpu_small)
                         (leaf_queries cpu_small_last 4)).
Proof.
  apply (proj1 (subleaf_loop_queries cpu_small cpu_small_last 4 [] 4
                  (cpu_small_first_break 4 ltac:(lia)))).
  cbn. lia.
Defined.

Lemma AddAllCPUID_queries_witness :
  exists fuel,
    forall fuel', (fuel <= fuel')%nat ->
      AddAllCPUID cpu_small fuel' []
      = Some ([] ++ flat_map (query_writes cpu_small)
                             (all_queries cpu_small_last
                                (ax (cpu_small 0 0))
                                (ax (cpu_small 2147483648 0)))).
Proof.
  apply (AddAllCPUID_queries cpu_small cpu_small_last []).
  - vm_compute. reflexivity.
  - vm_compute. reflexivity.
  - exact cpu_small_first_break.
Defined.

(** ** What AddFile absorbs *)

Lemma AddFile_appends (fs : filesystem) (hasher : CSHA512) (path : cstring) :
  AddFile fs hasher path = hasher ++ AddFile_writes fs path.
Proof.
  unfold AddFile, AddFile_writes.
  destruct (fs_open fs path =? -1); cbn [negb]; [now rewrite app_nil_r|].
  change 0 with (4096 * (256 - Z.of_nat 256)).
  rewrite AddFile_loop_reads by lia.
  unfold AddFile_header, Write.
  destruct (fstat_result (fs_file fs (fs_open fs path)));
    now rewrite <- !app_assoc.
Qed.

Lemma reads_done_chunks_bound (b : nat) (pending : list read_result) :
  (length (flat_map chunk_of (reads_done b pending)) <= b)%nat.
Proof.
  revert pending. induction b as [|b IH]; intros pending;
    [apply Nat.le_0_l|].
  destruct pending as [|r rest]; [apply Nat.le_0_l|].
  rewrite reads_done_cons, flat_map_step, length_app.
  assert (Hr : (length (chunk_of r) <= 1)%nat).
  { destruct r as [|d]; [apply Nat.le_0_l|]. unfold chunk_of.
    destruct (firstn sizeof_fbuf d); cbn [length]; lia. }
  specialize (IH rest).
  destruct (full_read r); [lia|]. cbn [flat_map length]. lia.
Qed.

(** X5.  What [AddFile] adds does not depend on what the hasher holds:
    earlier writes are kept as they are and the file's writes follow.
    They are none when the file cannot be opened, and otherwise at most
    258 writes (the descriptor, the [fstat] result and up to 256 chunks)
    of at most 4 bytes plus the size of the [fstat] result plus 1048576
    bytes of content in all. *)
Theorem AddFile_contribution (fs : filesystem) (hasher : CSHA512)
    (path : cstring) :
  AddFile fs hasher path = hasher ++ AddFile_writes fs path
  /\ (fs_open fs path = -1 -> AddFile fs hasher path = hasher)
  /\ (length (AddFile_writes fs path) <= 258)%nat
  /\ Z.of_nat (length (concat (AddFile_writes fs path)))
     <= 4 + Z.of_nat (fstat_size fs path) + AddFile_cap.
Proof.
  split; [apply AddFile_appends|]. split.
  { intros Hfail. rewrite AddFile_appends. unfold AddFile_writes.
    rewrite Hfail. cbn. now rewrite app_nil_r. }
  unfold AddFile_writes, fstat_size, AddFile_header, AddFile_cap.
  destruct (fs_open fs path =? -1); [cbn [length concat]; split; lia|].
  set (file := fs_file fs (fs_open fs path)).
  pose proof (reads_done_chunks_bound 256 (pending_reads file)) as Hcount.
  pose proof (reads_done_payload_bound 256 (pending_reads file)) as Hbytes.
  unfold sizeof_fbuf in Hbytes.
  rewrite length_app, concat_app, length_app.
  destruct (fstat_result file) as [sb|]; cbn [length concat app];
    rewrite ?length_app, ?le_bytes_length; cbn [length];
    unfold sizeof_int; split; lia.
Qed.

Lemma AddFile_contribution_witness :
  AddFile fs_root_only [[x07]] [x2f; x65; x74; x63] = [[x07]].
Proof.
  apply (proj1 (proj2 (AddFile_contribution fs_root_only [[x07]]
                         [x2f; x65; x74; x63]))).
  reflexivity.
Defined.

(** On a file that delivers full chunks as long as it can, the reads
    absorb the content chunk by chunk, whatever its length. *)
Lemma reads_done_chunk_reads_any (b : nat) :
  forall (m : nat) (content : list byte),
    (length content / sizeof_fbuf < m \/ b <= m)%nat ->
    concat (flat_map chunk_of (reads_done b (chunk_reads m content)))
    = firstn (sizeof_fbuf * b) content.
Proof.
  assert (Hbuf : sizeof_fbuf = 4096%nat) by reflexivity.
  induction b as [|b IH]; intros m content Hm.
  - now rewrite Nat.mul_0_r.
  - destruct m as [|m]; [lia|].
    rewrite chunk_reads_S, reads_done_cons, flat_map_step, concat_app.
    unfold full_read. unfold chunk_of at 1.
    rewrite firstn_firstn, Nat.min_id, length_firstn.
    destruct (Nat.leb_spec sizeof_fbuf (length content)) as [Hfull|Hshort].
    + replace (sizeof_fbuf <=? Nat.min sizeof_fbuf (length content))%nat
        with true by (symmetry; apply Nat.leb_le; lia).
      assert (Hfirst : length (firstn sizeof_fbuf content) = sizeof_fbuf)
        by (rewrite length_firstn; lia).
      destruct (firstn sizeof_fbuf content) as [|x c] eqn:Hc;
        [cbn [length] in Hfirst; lia|].
      cbn [concat]. rewrite app_nil_r. rewrite IH.
      * rewrite <- Hc, Nat.mul_succ_r, Nat.add_comm. symmetry.
        apply firstn_plus.
      * rewrite length_skipn.
        destruct Hm as [Hm|Hm]; [left|right; lia].
        assert (Hdiv : (length content
                        = sizeof_fbuf * 1 + (length content - sizeof_fbuf))%nat)
          by lia.
        rewrite Hdiv, Nat.mul_comm, Nat.div_add_l in Hm by lia. lia.
    + replace (sizeof_fbuf <=? Nat.min sizeof_fbuf (length content))%nat
        with false by (symmetry; apply Nat.leb_gt; lia).
      cbn [flat_map concat]. rewrite app_nil_r.
      rewrite (firstn_all2 (n := sizeof_fbuf * S b)) by nia.
      rewrite (firstn_all2 (n := sizeof_fbuf)) by lia.
      destruct content; [reflexivity|].
      cbn [concat]. now rewrite app_nil_r.
Qed.

(** X6.  For a file that can be opened and delivers its content in full
    chunks, the content bytes absorbed are the first 1048576 bytes of the
    content, whatever its length: a file shorter than that, the empty
    file included, is absorbed whole. *)
Theorem AddFile_absorbs_prefix (fs : filesystem) (hasher : CSHA512)
    (path : cstring) (sb : option (list byte)) (content : list byte) :
  fs_open fs path <> -1 ->
  fs_file fs (fs_open fs path) = stub_file sb content ->
  absorbed (AddFile fs hasher path)
  = absorbed hasher ++ concat (AddFile_header fs path)
    ++ firstn (Z.to_nat AddFile_cap) content
  /\ (Z.of_nat (length content) <= AddFile_cap ->
      absorbed (AddFile fs hasher path)
      = absorbed hasher ++ concat (AddFile_header fs path) ++ content).
Proof.
  intros Hopen Hfile.
  assert (Hall : absorbed (AddFile fs hasher path)
                 = absorbed hasher ++ concat (AddFile_header fs path)
                   ++ firstn (Z.to_nat AddFile_cap) content).
  { rewrite AddFile_appends, absorbed_app. unfold AddFile_writes.
    replace (fs_open fs path =? -1) with false
      by (symmetry; now apply Z.eqb_neq).
    rewrite concat_app, Hfile. unfold stub_file. cbn [pending_reads].
    rewrite reads_done_chunk_reads_any by (left; lia).
    replace (Z.to_nat AddFile_cap) with (sizeof_fbuf * 256)%nat
      by (unfold AddFile_cap, sizeof_fbuf; lia).
    reflexivity. }
  split; [exact Hall|].
  intros Hshort. rewrite Hall. now rewrite firstn_all2 by lia.
Qed.

Lemma AddFile_absorbs_prefix_witness :
  absorbed (AddFile fs_small_file [] [x2f])
  = absorbed [] ++ concat (AddFile_header fs_small_file [x2f])
    ++ [x61; x62; x63].
Proof.
  apply (proj2 (AddFile_absorbs_prefix fs_small_file [] [x2f] None
                  [x61; x62; x63] ltac:(discriminate) eq_refl)).
  cbn. discriminate.
Defined.

(** ** Length prefixes of AddSysctl *)

Lemma Z_of_byte_of_Z (z : Z) : Z_of_byte (byte_of_Z z) = z mod 256.
Proof.
  unfold Z_of_byte, byte_of_Z.
  pose proof (Z.mod_pos_bound z 256 ltac:(lia)) as Hmod.
  destruct (Byte.of_N (Z.to_N (z mod 256))) as [b|] eqn:Hb.
  - apply Byte.to_of_N in Hb. rewrite Hb. lia.
  - apply Byte.of_N_None_iff in Hb. lia.
Qed.

(** Decoding a little-endian field gives back the value written, as far
    as the field can hold it. *)
Lemma le_decode_le_bytes (n : nat) :
  forall v : Z, le_decode (le_bytes n v) = v mod 256 ^ Z.of_nat n.
Proof.
  induction n as [|n IH]; intros v.
  - cbn. now rewrite Z.mod_1_r.
  - cbn [le_bytes le_decode]. rewrite Z_of_byte_of_Z, IH.
    rewrite Nat2Z.inj_succ, Z.pow_succ_r by lia.
    rewrite Z.rem_mul_r by lia. lia.
Qed.

Lemma le_decode_size_t (n : nat) :
  Z.of_nat n < SIZE_MOD ->
  le_decode (le_bytes sizeof_size_t (Z.of_nat n)) = Z.of_nat n.
Proof.
  intros Hn. rewrite le_decode_le_bytes. apply Z.mod_small.
  change (256 ^ Z.of_nat sizeof_size_t) with SIZE_MOD. lia.
Qed.

Lemma CTL_bytes_length (CTL : list Z) :
  length (flat_map (le_bytes sizeof_int) CTL) = (sizeof_int * length CTL)%nat.
Proof.
  induction CTL as [|c CTL IH]; [reflexivity|].
  cbn [flat_map]. rewrite length_app, le_bytes_length, IH.
  cbn [length]. lia.
Qed.

Section SysctlPrefixes.

Variable ENOMEM : Z.
Variable sysctl : list Z -> Z -> sysctl_result.

(** X7.  When the query is accepted (it returned 0, or -1 with [ENOMEM])
    and reports a size that is not negative, the four writes of
    [AddSysctl] are two length-prefixed fields: the size of the name and
    the name, the number of result bytes and those bytes.  Each prefix
    decodes to the length of the field that follows it, and the result
    field has at most 65536 bytes. *)
Theorem AddSysctl_length_prefixed (CTL : list Z) (hasher : CSHA512) :
  let r := sysctl CTL 65536 in
  sysctl_ret r = 0 \/ (sysctl_ret r = -1 /\ sysctl_errno r = ENOMEM) ->
  0 <= sysctl_siz r ->
  Z.of_nat (sizeof_int * length CTL) < SIZE_MOD ->
  exists name_size name data_size data,
    AddSysctl ENOMEM sysctl CTL hasher
    = hasher ++ [name_size; name; data_size; data]
    /\ le_decode name_size = Z.of_nat (length name)
    /\ le_decode data_size = Z.of_nat (length data)
    /\ length name = (sizeof_int * length CTL)%nat
    /\ Z.of_nat (length data) = Z.min (sysctl_siz r) sizeof_buffer.
Proof.
  intros r Hacc Hsiz Hname.
  set (siz := Z.min (sysctl_siz r) sizeof_buffer).
  exists (le_bytes sizeof_size_t (Z.of_nat (sizeof_int * length CTL))),
         (flat_map (le_bytes sizeof_int) CTL),
         (le_bytes sizeof_size_t siz),
         (load (sysctl_buffer r) 0 (Z.to_nat siz)).
  assert (Hdata : Z.of_nat (Z.to_nat siz) = siz)
    by (unfold siz, sizeof_buffer; lia).
  repeat split.
  - unfold AddSysctl. fold r.
    replace (if sysctl_siz r >? sizeof_buffer then sizeof_buffer
             else sysctl_siz r) with siz
      by (unfold siz;
          destruct (Z.gtb_spec (sysctl_siz r) sizeof_buffer); lia).
    replace ((sysctl_ret r =? 0)
             || (sysctl_ret r =? -1) && (sysctl_errno r =? ENOMEM))
      with true.
    + unfold shl_size_t, Write. now rewrite <- !app_assoc.
    + symmetry. destruct Hacc as [H0|[H1 He]].
      * rewrite H0. reflexivity.
      * rewrite H1, He, !Z.eqb_refl. reflexivity.
  - rewrite CTL_bytes_length. now apply le_decode_size_t.
  - rewrite load_length, Hdata, le_decode_le_bytes. apply Z.mod_small.
    change (256 ^ Z.of_nat sizeof_size_t) with SIZE_MOD.
    rewrite SIZE_MOD_value. unfold siz, sizeof_buffer. lia.
  - apply CTL_bytes_length.
  - now rewrite load_length.
Qed.

End SysctlPrefixes.

Lemma AddSysctl_length_prefixed_witness :
  exists name_size name data_size data,
    AddSysctl LINUX_ENOMEM sysctl_loadavg [2; 2] []
    = [] ++ [name_size; name; data_size; data]
    /\ le_decode name_size = Z.of_nat (length name)
    /\ le_decode data_size = Z.of_nat (length data)
    /\ length name = (sizeof_int * length [2; 2])%nat
    /\ Z.of_nat (length data)
       = Z.min (sysctl_siz (sysctl_loadavg [2; 2] 65536)) sizeof_buffer.
Proof.
  apply (AddSysctl_length_prefixed LINUX_ENOMEM sysctl_loadavg [2; 2] []).
  - left. reflexivity.
  - cbn. lia.
  - vm_compute. reflexivity.
Defined.

(** ** The interface list *)

Section InterfaceFacts.

Variables AF_INET AF_INET6 : Z.
Variables sizeof_sockaddr_in sizeof_sockaddr_in6 : nat.
Variables offsetof_sa_family sizeof_sa_family : nat.

Local Abbreviation add_sockaddr :=
  (AddSockaddr AF_INET AF_INET6 sizeof_sockaddr_in sizeof_sockaddr_in6
               offsetof_sa_family sizeof_sa_family).
Local Abbreviation add_interfaces :=
  (RandAddStaticEnv_ifaddrs AF_INET AF_INET6 sizeof_sockaddr_in
                            sizeof_sockaddr_in6 offsetof_sa_family
                            sizeof_sa_family).



End InterfaceFacts.


(** With a loopback interface that has an address and a netmask and no
    destination, five writes are added. *)
Example linux_ifaddrs_loopback :
  length (linux_ifaddrs [if_lo] []) = 5%nat.
Proof. reflexivity. Qed.

(** ** The host name *)

Lemma strnlen_le (s : cstring) :
  forall n : nat, (strnlen s n <= n)%nat /\ (strnlen s n <= length s)%nat.
Proof.
  induction s as [|b s IH]; intros [|n]; cbn [strnlen length]; try lia.
  destruct (Byte.eqb b x00); [lia|]. specialize (IH n). lia.
Qed.

Lemma strnlen_no_nul (s : cstring) :
  forall n : nat, ~ In x00 (firstn (strnlen s n) s).
Proof.
  induction s as [|b s IH]; intros [|n]; cbn [strnlen firstn];
    try (intros []).
  destruct (Byte.eqb b x00) eqn:Hb; [intros []|].
  cbn [firstn]. intros [Hhead|Htail]; [|now apply (IH n)].
  subst b. discriminate.
Qed.

Lemma strnlen_stops (s : cstring) :
  forall n : nat,
    (strnlen s n < n)%nat -> (strnlen s n < length s)%nat ->
    nth (strnlen s n) s x00 = x00.
Proof.
  induction s as [|b s IH]; intros [|n]; cbn [strnlen length]; try lia.
  destruct (Byte.eqb b x00) eqn:Hb.
  - intros _ _. now apply Byte.byte_dec_bl in Hb.
  - intros Hn Hs. cbn [nth]. apply IH; lia.
Qed.

Lemma load_prefix (m : mem_view) (k n : nat) :
  (k <= n)%nat -> load m 0 k = firstn k (load m 0 n).
Proof.
  intros Hk. unfold load.
  replace n with (k + (n - k))%nat by lia.
  rewrite seq_app, map_app, firstn_app, length_map, length_seq.
  rewrite Nat.sub_diag, firstn_0, app_nil_r.
  symmetry. apply firstn_all2. now rewrite length_map, length_seq.
Qed.

Lemma load_nth (m : mem_view) (k n : nat) :
  (k < n)%nat -> nth k (load m 0 n) x00 = m k.
Proof.
  intros Hk. unfold load.
  rewrite (nth_indep _ x00 (m O)) by (now rewrite length_map, length_seq).
  rewrite map_nth. now rewrite seq_nth.
Qed.

(** X9.  When [gethostname] fails nothing is written.  When it succeeds
    one write is made, of the bytes of [hname] before its first NUL and
    of at most 256 bytes: the name without any terminator, cut at the
    size of the buffer when no NUL is found in it. *)
Theorem RandAddStaticEnv_hostname_bounded (ret : Z) (hname : mem_view)
    (hasher : CSHA512) :
  (ret <> 0 -> RandAddStaticEnv_hostname (ret, hname) hasher = hasher)
  /\ (ret = 0 ->
      exists name,
        RandAddStaticEnv_hostname (ret, hname) hasher = hasher ++ [name]
        /\ (length name <= 256)%nat
        /\ ~ In x00 name
        /\ name = load hname 0 (length name)
        /\ ((length name < 256)%nat -> hname (length name) = x00)).
Proof.
  unfold RandAddStaticEnv_hostname. split.
  - intros Hfail. now replace (ret =? 0) with false
      by (symmetry; now apply Z.eqb_neq).
  - intros ->. cbn [Z.eqb].
    set (buffer := load hname 0 256).
    destruct (strnlen_le buffer 256) as [Hk _].
    exists (load hname 0 (strnlen buffer 256)).
    rewrite load_length. repeat split.
    + exact Hk.
    + rewrite (load_prefix hname _ 256 Hk). apply strnlen_no_nul.
    + intros Hshort.
      rewrite <- (load_nth hname _ 256 Hshort). fold buffer.
      apply strnlen_stops; [exact Hshort|].
      unfold buffer. now rewrite load_length.
Qed.

Lemma RandAddStaticEnv_hostname_bounded_witness :
  RandAddStaticEnv_hostname (-1, fun _ => x41) [[x07]] = [[x07]].
Proof.
  apply (proj1 (RandAddStaticEnv_hostname_bounded (-1) (fun _ => x41)
                  [[x07]])).
  discriminate.
Defined.

(** ** Strings written with their terminator *)

(** Two NUL-terminated strings followed by anything agree only if the
    strings agree and what follows agrees. *)
Lemma nul_terminated_split (a b r1 r2 : list byte) :
  ~ In x00 a -> ~ In x00 b ->
  a ++ x00 :: r1 = b ++ x00 :: r2 -> a = b /\ r1 = r2.
Proof.
  revert b. induction a as [|x a IH]; intros [|y b] Ha Hb Heq;
    cbn [app] in Heq.
  - now injection Heq.
  - injection Heq as Hy _. exfalso. apply Hb. now left.
  - injection Heq as Hx _. exfalso. apply Ha. now left.
  - injection Heq as Hxy Hrest. subst y.
    destruct (IH b) as [-> ->]; auto.
    + intros Hin. apply Ha. now right.
    + intros Hin. apply Hb. now right.
Qed.

Lemma terminated_split (s t : cstring) (r1 r2 : list byte) :
  (c_str s ++ [x00]) ++ r1 = (c_str t ++ [x00]) ++ r2 ->
  c_str s = c_str t /\ r1 = r2.
Proof.
  rewrite <- !app_assoc. cbn [app].
  apply nul_terminated_split; apply c_str_no_nul.
Qed.

(** X10.  The five strings of [uname] are written each with its NUL, so
    the bytes absorbed determine them: two kernels whose identities give
    the same absorbed bytes have the same system name, node name,
    release, version and machine. *)
Theorem RandAddStaticEnv_uname_injective (n1 n2 : utsname)
    (hasher : CSHA512) :
  absorbed (RandAddStaticEnv_uname (Some n1) hasher)
  = absorbed (RandAddStaticEnv_uname (Some n2) hasher) ->
  c_str (sysname n1) = c_str (sysname n2)
  /\ c_str (nodename n1) = c_str (nodename n2)
  /\ c_str (release n1) = c_str (release n2)
  /\ c_str (version n1) = c_str (version n2)
  /\ c_str (machine n1) = c_str (machine n2).
Proof.
  cbn [RandAddStaticEnv_uname]. cbv zeta.
  rewrite !absorbed_Write, !str_bytes_terminated, <- !app_assoc.
  intros Heq. apply app_inv_head in Heq.
  rewrite !(app_assoc (c_str _) [x00]) in Heq.
  apply terminated_split in Heq. destruct Heq as [H1 Heq].
  apply terminated_split in Heq. destruct Heq as [H2 Heq].
  apply terminated_split in Heq. destruct Heq as [H3 Heq].
  apply terminated_split in Heq. destruct Heq as [H4 Heq].
  rewrite <- (app_nil_r (c_str (machine n1) ++ [x00])) in Heq.
  rewrite <- (app_nil_r (c_str (machine n2) ++ [x00])) in Heq.
  apply terminated_split in Heq. destruct Heq as [H5 _].
  repeat split; assumption.
Qed.

Lemma RandAddStaticEnv_uname_injective_witness :
  c_str [x4c] = c_str [x4c].
Proof.
  apply (RandAddStaticEnv_uname_injective
           (mk_utsname [x4c] [x68] [x36] [x23] [x78])
           (mk_utsname [x4c] [x68] [x36] [x23] [x78]) []).
  reflexivity.
Defined.

(** X11.  For two paths that both resolve, [AddPath] gives the same
    absorbed bytes only if the path strings and the two [struct stat]
    results are the same: the NUL written after the path keeps path and
    metadata apart. *)
Theorem AddPath_injective (fs : filesystem) (hasher : CSHA512)
    (p1 p2 : cstring) (sb1 sb2 : list byte) :
  fs_stat fs p1 = Some sb1 ->
  fs_stat fs p2 = Some sb2 ->
  absorbed (AddPath fs hasher p1) = absorbed (AddPath fs hasher p2) ->
  c_str p1 = c_str p2 /\ sb1 = sb2.
Proof.
  unfold AddPath. intros -> ->.
  rewrite !absorbed_Write, !str_bytes_terminated, <- !app_assoc.
  intros Heq. apply app_inv_head in Heq.
  rewrite !(app_assoc (c_str _) [x00]) in Heq.
  now apply terminated_split in Heq.
Qed.

Lemma AddPath_injective_witness :
  c_str [x2f] = c_str [x2f] /\ [x01; x02] = [x01; x02].
Proof.
  apply (AddPath_injective fs_root_only [] [x2f] [x2f]
                           [x01; x02] [x01; x02]);
    reflexivity.
Defined.

(** ** RandAddDynamicEnv *)






